(** * Keyword extractor: paragraphs, keyword filter, formatter, exporter, shell

    A shallow embedding of [keyword_extractor.py].

    Python [str] values are sequences of Unicode code points: a character is
    a code point ([N]) and a string a list of them.  The Unicode character
    database the interpreter consults ([str.isalnum], [str.isspace],
    case-insensitive comparison of the [re] module, [str.lower]) is not part
    of the program; it is the parameter [CharDB].  The instance [ascii_db] at
    the end of the definitions is that database restricted to ASCII and is
    what the concrete examples run on. *)

From Stdlib Require Import String Ascii List NArith Bool Arith Lia.
Import ListNotations.

Set Implicit Arguments.

Local Open Scope N_scope.
Local Open Scope list_scope.

(** ** Characters and strings *)

Definition char := N.
Definition str := list char.

Class CharDB := {
  (** [c.isalnum()] *)
  is_alnum : char -> bool;
  (** [c.isspace()], which is also the class [\s] of [re] on [str] *)
  is_space : char -> bool;
  (** a literal pattern character against a text character under
      [re.IGNORECASE] *)
  ci_match : char -> char -> bool;
  (** [s.lower()] *)
  str_lower : str -> str
}.

(** An ASCII literal as a Python string. *)
Definition lit (s : string) : str := map N_of_ascii (list_ascii_of_string s).

Definition ch_newline : char := 10.
Definition ch_space : char := 32.
Definition ch_star : char := 42.
Definition ch_comma : char := 44.
Definition ch_hyphen : char := 45.
Definition ch_dot : char := 46.
Definition ch_underscore : char := 95.

(** Truthiness of a string: [if s] / [if not s]. *)
Definition is_empty (s : str) : bool :=
  match s with [] => true | _ :: _ => false end.

Fixpoint str_eqb (a b : str) : bool :=
  match a, b with
  | [], [] => true
  | x :: a', y :: b' => (x =? y) && str_eqb a' b'
  | _, _ => false
  end.

(** [s.startswith(p)] *)
Fixpoint starts_with (p s : str) : bool :=
  match p with
  | [] => true
  | x :: p' => match s with
               | [] => false
               | c :: s' => (c =? x) && starts_with p' s'
               end
  end.

(** [s.endswith(p)] *)
Definition ends_with (s p : str) : bool := starts_with (rev p) (rev s).

Fixpoint drop_while (f : char -> bool) (s : str) : str :=
  match s with
  | [] => []
  | c :: s' => if f c then drop_while f s' else s
  end.

(** [s.rstrip(chars)] for a one-character set, [s.lstrip()], [s.strip()] *)
Definition rstrip_by (f : char -> bool) (s : str) : str :=
  rev (drop_while f (rev s)).

Definition rstrip_char (c : char) (s : str) : str := rstrip_by (N.eqb c) s.

(** [sep.join(parts)] *)
Fixpoint join (sep : str) (parts : list str) : str :=
  match parts with
  | [] => []
  | [p] => p
  | p :: ps => p ++ sep ++ join sep ps
  end.

(** ** The operations of the [re] module

    A compiled pattern is used through what the engine answers at one
    position: given the character before the position ([None] at the start
    of the text; look-behind and [\b] read it) and the text from the position
    on, the length of the match there, if any.  Each pattern of the program
    consumes at least one character, so a zero-length answer is handled as no
    match by [re_sub] and [re_split]. *)

Definition matcher := option char -> str -> option nat.

(** [re.search(pattern, s)] as a truth value: positions are tried from left
    to right, the end of the text included. *)
Fixpoint search_from (mt : matcher) (prev : option char) (s : str) : bool :=
  match mt prev s with
  | Some _ => true
  | None => match s with
            | [] => false
            | c :: s' => search_from mt (Some c) s'
            end
  end.

Definition re_search (mt : matcher) (s : str) : bool := search_from mt None s.

(** [pattern.sub(repl, s)]: the leftmost match is replaced by [repl] applied
    to the matched text and the scan resumes after it.  [skip] counts the
    characters of the text that the match just replaced still covers. *)
Fixpoint sub_loop (mt : matcher) (repl : str -> str)
         (prev : option char) (skip : nat) (s : str) : str :=
  match s with
  | [] => []
  | c :: s' =>
      match skip with
      | S k => sub_loop mt repl (Some c) k s'
      | O => match mt prev s with
             | Some (S n) =>
                 repl (firstn (S n) s) ++ sub_loop mt repl (Some c) n s'
             | _ => c :: sub_loop mt repl (Some c) O s'
             end
      end
  end.

Definition re_sub (mt : matcher) (repl : str -> str) (s : str) : str :=
  sub_loop mt repl None O s.

Definition cons_head (c : char) (pieces : list str) : list str :=
  match pieces with
  | [] => [[c]]
  | p :: ps => (c :: p) :: ps
  end.

(** [re.split(pattern, s)] for a pattern without groups: the pieces of the
    text between the matches, empty pieces included. *)
Fixpoint split_loop (mt : matcher) (prev : option char) (skip : nat)
         (s : str) : list str :=
  match s with
  | [] => [[]]
  | c :: s' =>
      match skip with
      | S k => split_loop mt (Some c) k s'
      | O => match mt prev s with
             | Some (S n) => [] :: split_loop mt (Some c) n s'
             | _ => cons_head c (split_loop mt (Some c) O s')
             end
      end
  end.

Definition re_split (mt : matcher) (s : str) : list str :=
  split_loop mt None O s.

(** Length of the longest prefix whose characters all satisfy [f]: what a
    greedy repetition of a character class takes. *)
Fixpoint run_length (f : char -> bool) (s : str) : nat :=
  match s with
  | [] => O
  | c :: s' => if f c then S (run_length f s') else O
  end.

Section Patterns.
Context {db : CharDB}.

(** [\w] on [str]: alphanumeric or underscore. *)
Definition is_word (c : char) : bool := is_alnum c || (c =? ch_underscore).

Definition opt_word (o : option char) : bool :=
  match o with
  | Some c => is_word c
  | None => false
  end.

(** [\b]: exactly one of the two neighbours of the position is a word
    character; outside the text counts as not a word character. *)
Definition at_boundary (before after : option char) : bool :=
  xorb (opt_word before) (opt_word after).

(** [s.strip()] *)
Definition strip (s : str) : str :=
  rstrip_by is_space (drop_while is_space s).

(** [re.escape(kw)] compiled with [re.IGNORECASE]: [kw] character by
    character at the head of the text. *)
Fixpoint lit_ci (kw s : str) : bool :=
  match kw with
  | [] => true
  | k :: kw' => match s with
                | [] => false
                | c :: s' => ci_match k c && lit_ci kw' s'
                end
  end.

(** The character before position [length m] when [m] was read after
    [prev]. *)
Definition last_before (prev : option char) (m : str) : option char :=
  match rev m with
  | [] => prev
  | c :: _ => Some c
  end.

(** [r"\b" + re.escape(kw) + r"\b"], [flags=re.IGNORECASE] *)
Definition pat_word (kw : str) : matcher := fun prev s =>
  let n := length kw in
  if at_boundary prev (hd_error s) && lit_ci kw s
     && at_boundary (last_before prev (firstn n s)) (hd_error (skipn n s))
  then Some n else None.

(** [r"-\n"] *)
Definition pat_hyphen_newline : matcher := fun _ s =>
  if starts_with [ch_hyphen; ch_newline] s then Some 2%nat else None.

(** [r"\n+"] *)
Definition pat_newlines : matcher := fun _ s =>
  match run_length (N.eqb ch_newline) s with
  | O => None
  | n => Some n
  end.

(** [r"\n{2,}"] *)
Definition pat_blank_lines : matcher := fun _ s =>
  let n := run_length (N.eqb ch_newline) s in
  if (2 <=? n)%nat then Some n else None.

(** [r"\s{2,}"] *)
Definition pat_spaces2 : matcher := fun _ s =>
  let n := run_length is_space s in
  if (2 <=? n)%nat then Some n else None.

(** [[.!?]] *)
Definition is_sentence_end (c : char) : bool :=
  (c =? 46) || (c =? 33) || (c =? 63).

(** [r"(?<=[.!?])\s+"] *)
Definition pat_sentence_gap : matcher := fun prev s =>
  match prev with
  | Some p =>
      if is_sentence_end p
      then match run_length is_space s with
           | O => None
           | n => Some n
           end
      else None
  | None => None
  end.

(** [r"[\s,]+"] *)
Definition pat_separators : matcher := fun _ s =>
  match run_length (fun c => is_space c || (c =? ch_comma)) s with
  | O => None
  | n => Some n
  end.

(** [(.*?)\*\*]: the lazy group takes the fewest characters, none of them
    a line break, after which two stars follow. *)
Fixpoint lazy_until_stars (s : str) : option nat :=
  if starts_with [ch_star; ch_star] s then Some O
  else match s with
       | [] => None
       | c :: s' => if c =? ch_newline then None
                    else option_map S (lazy_until_stars s')
       end.

(** [r"\*\*(.*?)\*\*"] *)
Definition pat_strong : matcher := fun _ s =>
  if starts_with [ch_star; ch_star] s
  then option_map (fun n => (n + 4)%nat) (lazy_until_stars (skipn 2 s))
  else None.

(** The replacement [r"\1"] for [pat_strong]: the matched text without its
    two leading and two trailing stars. *)
Definition group1_strong (m : str) : str :=
  firstn (length m - 4) (skipn 2 m).

(** [s.split("\n\n")] *)
Definition split_blank (s : str) : list str :=
  split_loop (fun _ t => if starts_with [ch_newline; ch_newline] t
                         then Some 2%nat else None) None O s.

(** [[p.strip() for p in pieces if p.strip()]] *)
Definition stripped_nonempty (pieces : list str) : list str :=
  filter (fun p => negb (is_empty p)) (map strip pieces).

End Patterns.

(** ** Source loaders *)

(** The collaborators of the program: the HTTP client, the HTML parser, the
    file system, the PDF reader and the document writer.  A failure carries
    the text of the exception. *)
Class World := {
  (** [requests.get(url, timeout=15)] then [raise_for_status()]: the text of
      the exception, or [r.text] *)
  http_get : str -> str + str;
  (** for each [p] element of the parsed page, in document order:
      [p.get_text(separator=" ")] and [p.get_text(strip=True)] *)
  soup_find_all_p : str -> list (str * str);
  (** [soup.get_text("\n")] *)
  soup_get_text : str -> str;
  (** [open(path, "rb").read()] *)
  read_bytes : str -> str + list N;
  (** [pdfplumber.open] and [page.extract_text()] of each page in order
      ([None] where the page has no text) *)
  pdf_pages : list N -> str + list (option str);
  (** [doc.save(path)] of a document with the given paragraphs: [None] on
      success *)
  doc_save : str -> list str -> option str
}.

(** "Błąd" *)
Definition msg_blad : str := [66; 322; 261; 100].

Section Loaders.
Context {db : CharDB} {w : World}.

Definition extract_text_from_url (url : str) : str + list str :=
  match http_get url with
  | inl e => inl (msg_blad ++ lit " przy pobieraniu strony: " ++ e)
  | inr html =>
      let paragraphs :=
        map (fun p => strip (fst p))
            (filter (fun p => negb (is_empty (snd p)))
                    (soup_find_all_p html)) in
      match paragraphs with
      | [] => inr (stripped_nonempty
                     (re_split pat_blank_lines (soup_get_text html)))
      | _ :: _ => inr paragraphs
      end
  end.

(** The body of the loop over [pdf.pages]: what one page adds to
    [paragraphs]. *)
Definition page_paragraphs (extracted : option str) : list str :=
  let text := match extracted with Some t => t | None => [] end in
  let text := re_sub pat_hyphen_newline (fun _ => []) text in
  let text := re_sub pat_newlines (fun _ => [ch_space]) text in
  let text := re_sub pat_spaces2 (fun _ => [ch_space]) text in
  stripped_nonempty (re_split pat_sentence_gap text).

Definition extract_text_from_pdf_bytes (pdf_bytes : list N)
  : str + list str :=
  match pdf_pages pdf_bytes with
  | inl e => inl (msg_blad ++ lit " przy odczycie PDF: " ++ e)
  | inr pages => inr (flat_map page_paragraphs pages)
  end.

End Loaders.

(** ** Keyword filter, formatter, exporter *)

Section Core.
Context {db : CharDB}.

Fixpoint paragraph_matches (paragraph : str) (keywords : list str) : bool :=
  match keywords with
  | [] => false
  | kw :: rest =>
      if is_empty kw then paragraph_matches paragraph rest
      else if re_search (pat_word kw) paragraph then true
      else paragraph_matches paragraph rest
  end.

(** [replacer]: ["*" + match.group(0) + "*"] *)
Definition replacer (m : str) : str := [ch_star] ++ m ++ [ch_star].

Fixpoint bold_keywords (paragraph : str) (keywords : list str) : str :=
  match keywords with
  | [] => paragraph
  | kw :: rest =>
      if is_empty kw then bold_keywords paragraph rest
      else bold_keywords (re_sub (pat_word kw) replacer paragraph) rest
  end.

(** "**Źródło: " *)
Definition header_open : str :=
  [42; 42; 377; 114; 243; 100; 322; 111; 58; 32].

Definition result_line (keywords : list str) (entry : str * str) : str :=
  let (source, paragraph) := entry in
  header_open ++ source ++ lit "**" ++ [ch_newline; ch_newline]
    ++ bold_keywords paragraph keywords ++ [ch_newline].

Definition build_result_text_with_sources
           (matching_paragraphs : list (str * str)) (keywords : list str)
  : str :=
  join ([ch_newline] ++ lit "---" ++ [ch_newline])
       (map (result_line keywords) matching_paragraphs).

(** The paragraphs [save_as_docx] adds to the document, in order. *)
Definition docx_paragraphs (text : str) : list str :=
  let clean_text := re_sub pat_strong group1_strong text in
  stripped_nonempty (split_blank clean_text).

(** [text[:max_len-3] + "..."], with Python's meaning of a negative stop. *)
Definition shorten_text (text : str) (max_len : nat) : str :=
  if (length text <=? max_len)%nat then text
  else (if (3 <=? max_len)%nat then firstn (max_len - 3) text
        else firstn (length text - (3 - max_len)) text) ++ lit "...".

End Core.

(** ** Interactive shell *)

(** A Python [dict] with string keys: an association list in insertion
    order, each key at most once. *)
Fixpoint dict_get {V : Type} (d : list (str * V)) (k : str) : option V :=
  match d with
  | [] => None
  | (k', v) :: d' => if str_eqb k' k then Some v else dict_get d' k
  end.

(** [d[k] = v]: a present key keeps its place, a new key goes last. *)
Fixpoint dict_set {V : Type} (d : list (str * V)) (k : str) (v : V)
  : list (str * V) :=
  match d with
  | [] => [(k, v)]
  | (k', v') :: d' =>
      if str_eqb k' k then (k', v) :: d' else (k', v') :: dict_set d' k v
  end.

Record FilePickerFile := { f_name : str; f_path : str }.

(** [file_picker.result]: the event of the last dialog, whose [files] is
    [None] when the dialog was dismissed. *)
Record FilePickerResultEvent := { ev_files : option (list FilePickerFile) }.

Record Checkbox := { cb_label : str; cb_value : bool }.

Record Form := {
  url_field : str;
  keywords_field : str;
  (** [None] until a dialog has delivered a result *)
  file_picker_result : option FilePickerResultEvent
}.

Record Shell := {
  source_paragraphs : list (str * list str);
  keywords : list str;
  source_checkboxes : list (str * Checkbox);
  (** [filter_column.controls]: one container per source, named by its
      tooltip; its content is the checkbox kept under that key *)
  filter_column : list str;
  (** [output_area.value] *)
  output_area : str;
  (** the text of [page.snack_bar], if one was opened *)
  snack_bar : option str;
  (** [progress_bar.visible] and [progress_text.visible] *)
  progress_visible : bool;
  (** files done and files in all, shown by the progress bar and its text *)
  progress_value : nat * nat
}.

Definition initial_shell : Shell :=
  {| source_paragraphs := []; keywords := []; source_checkboxes := [];
     filter_column := []; output_area := []; snack_bar := None;
     progress_visible := false; progress_value := (O, O) |}.

(** What the shell did to its collaborators, oldest first. *)
Inductive Event :=
| EvGet (url : str)
| EvOpen (path : str)
| EvSave (path : str) (paragraphs : list str).

Definition with_snack (st : Shell) (msg : str) : Shell :=
  {| source_paragraphs := source_paragraphs st; keywords := keywords st;
     source_checkboxes := source_checkboxes st;
     filter_column := filter_column st; output_area := output_area st;
     snack_bar := Some msg;
     progress_visible := progress_visible st;
     progress_value := progress_value st |}.

Definition with_progress (st : Shell) (visible : bool) (value : nat * nat)
  : Shell :=
  {| source_paragraphs := source_paragraphs st; keywords := keywords st;
     source_checkboxes := source_checkboxes st;
     filter_column := filter_column st; output_area := output_area st;
     snack_bar := snack_bar st;
     progress_visible := visible; progress_value := value |}.

Definition with_sources (st : Shell) (sp : list (str * list str)) : Shell :=
  {| source_paragraphs := sp; keywords := keywords st;
     source_checkboxes := source_checkboxes st;
     filter_column := filter_column st; output_area := output_area st;
     snack_bar := snack_bar st;
     progress_visible := progress_visible st;
     progress_value := progress_value st |}.

Definition with_output (st : Shell) (text : str) : Shell :=
  {| source_paragraphs := source_paragraphs st; keywords := keywords st;
     source_checkboxes := source_checkboxes st;
     filter_column := filter_column st; output_area := text;
     snack_bar := snack_bar st;
     progress_visible := progress_visible st;
     progress_value := progress_value st |}.

(** The failure exit of [process_click]: the message is shown, the progress
    widgets are hidden, the handler returns. *)
Definition abort (st : Shell) (msg : str) : Shell :=
  with_progress (with_snack st msg) false (progress_value st).

Section ShellOps.
Context {db : CharDB} {w : World}.

(** The inner loop of [update_output] over the paragraphs of one source;
    [seen] is the set of prefixes already emitted, [acc] is
    [matching_paragraphs] in reverse. *)
Fixpoint select_source (kws : list str) (source : str) (ps : list str)
         (seen : list str) (acc : list (str * str))
  : list str * list (str * str) :=
  match ps with
  | [] => (seen, acc)
  | p :: ps' =>
      if paragraph_matches p kws then
        let key := firstn 200 p in
        if existsb (str_eqb key) seen
        then select_source kws source ps' seen acc
        else select_source kws source ps' (key :: seen) ((source, p) :: acc)
      else select_source kws source ps' seen acc
  end.

(** The outer loop over the selected sources. *)
Fixpoint select_sources (sp : list (str * list str)) (kws : list str)
         (sources : list str) (seen : list str) (acc : list (str * str))
  : list str * list (str * str) :=
  match sources with
  | [] => (seen, acc)
  | source :: rest =>
      let paragraphs := match dict_get sp source with
                        | Some ps => ps
                        | None => []
                        end in
      let (seen', acc') := select_source kws source paragraphs seen acc in
      select_sources sp kws rest seen' acc'
  end.

(** [[src for src, cb in source_checkboxes.items() if cb.value]] *)
Definition selected_sources (st : Shell) : list str :=
  map fst (filter (fun e => cb_value (snd e)) (source_checkboxes st)).

(** [matching_paragraphs] at the end of the loops of [update_output]. *)
Definition select (st : Shell) : list (str * str) :=
  rev (snd (select_sources (source_paragraphs st) (keywords st)
                           (selected_sources st) [] [])).

Definition update_output (st : Shell) : Shell :=
  with_output st (build_result_text_with_sources (select st) (keywords st)).

(** [[k.strip() for k in re.split(r"[\s,]+", keywords_raw) if k.strip()]] *)
Definition parse_keywords (keywords_raw : str) : list str :=
  stripped_nonempty (re_split pat_separators keywords_raw).

(** The loop over [file_picker.result.files]: [i] files are done out of
    [total].  [inl] is the early return after a failure. *)
Fixpoint load_files (st : Shell) (log : list Event)
         (files : list FilePickerFile) (i total : nat)
  : (Shell * list Event) + (Shell * list Event) :=
  match files with
  | [] => inr (st, log)
  | f :: rest =>
      let log := log ++ [EvOpen (f_path f)] in
      match read_bytes (f_path f) with
      | inl e => inl (abort st e, log)
      | inr pdf_bytes =>
          match extract_text_from_pdf_bytes pdf_bytes with
          | inl e => inl (abort st e, log)
          | inr pdf_pars =>
              let st := with_sources st
                          (dict_set (source_paragraphs st)
                                    (lit "Plik PDF: " ++ f_name f) pdf_pars) in
              let st := with_progress st (progress_visible st)
                                      (S i, total) in
              load_files st log rest (S i) total
          end
      end
  end.

(** The loop that builds one checkbox per loaded source. *)
Fixpoint add_checkboxes (st : Shell) (sources : list str) : Shell :=
  match sources with
  | [] => st
  | source :: rest =>
      let cb := {| cb_label := shorten_text source 40; cb_value := true |} in
      add_checkboxes
        {| source_paragraphs := source_paragraphs st;
           keywords := keywords st;
           source_checkboxes := dict_set (source_checkboxes st) source cb;
           filter_column := filter_column st ++ [source];
           output_area := output_area st; snack_bar := snack_bar st;
           progress_visible := progress_visible st;
           progress_value := progress_value st |}
        rest
  end.

(** "Podaj przynajmniej jedno słowo kluczowe" *)
Definition msg_no_keywords : str :=
  lit "Podaj przynajmniej jedno s" ++ [322] ++ lit "owo kluczowe".

Definition msg_no_source : str := lit "Podaj URL lub wybierz plik(i) PDF".

Definition picked_files (form : Form) : list FilePickerFile :=
  match file_picker_result form with
  | Some {| ev_files := Some files |} => files
  | _ => []
  end.

(** The handler of the submit button.  [not file_picker.result] tests the
    presence of a dialog result: the event object is true whatever its
    [files].  The loop over the files runs under
    [file_picker.result and file_picker.result.files], which [picked_files]
    reads. *)
Definition process_click (st : Shell) (form : Form) : Shell * list Event :=
  let url := strip (url_field form) in
  let keywords_raw := strip (keywords_field form) in
  if is_empty url
     && match file_picker_result form with None => true | Some _ => false end
  then (with_snack st msg_no_source, [])
  else if is_empty keywords_raw
  then (with_snack st msg_no_keywords, [])
  else
    let st :=
      {| source_paragraphs := []; keywords := parse_keywords keywords_raw;
         source_checkboxes := []; filter_column := [];
         output_area := output_area st; snack_bar := snack_bar st;
         progress_visible := true; progress_value := progress_value st |} in
    let after_url :=
      if is_empty url then inr (st, [])
      else match extract_text_from_url url with
           | inr url_pars =>
               inr (with_sources st
                      (dict_set (source_paragraphs st)
                                (lit "URL: " ++ url) url_pars),
                    [EvGet url])
           | inl e => inl (abort st e, [EvGet url])
           end in
    match after_url with
    | inl failed => failed
    | inr (st, log) =>
        let files := picked_files form in
        match load_files st log files O (length files) with
        | inl failed => failed
        | inr (st, log) =>
            let st := with_progress st false (progress_value st) in
            let st := add_checkboxes st (map fst (source_paragraphs st)) in
            (update_output st, log)
        end
    end.

Definition save_as_docx (text path : str) : option str :=
  doc_save path (docx_paragraphs text).

(** "Błąd zapisu: " *)
Definition msg_save_failed : str := msg_blad ++ lit " zapisu: ".

(** The path [on_save_result] hands to [save_as_docx]. *)
Definition save_path (path : str) : str :=
  if negb (ends_with (str_lower path) (lit ".docx"))
  then rstrip_char ch_dot path ++ lit ".docx"
  else path.

(** [ev_path] is [ev.path]: [None] when the dialog was dismissed. *)
Definition on_save_result (st : Shell) (ev_path : option str)
  : Shell * list Event :=
  match ev_path with
  | None => (st, [])
  | Some [] => (st, [])
  | Some path =>
      let path := save_path path in
      let log := [EvSave path (docx_paragraphs (output_area st))] in
      match save_as_docx (output_area st) path with
      | None => (with_snack st (lit "Zapisano: " ++ path), log)
      | Some err => (with_snack st (msg_save_failed ++ err), log)
      end
  end.

End ShellOps.

(** ** The character database on ASCII

    Exact on code points below 128.  The examples apply it to ASCII
    paragraphs, keywords and paths; the letters beyond ASCII in the header
    and the messages of the program are only copied and, not being
    whitespace, never stripped. *)

Definition ascii_is_alnum (c : char) : bool :=
  ((48 <=? c) && (c <=? 57)) || ((65 <=? c) && (c <=? 90))
  || ((97 <=? c) && (c <=? 122)).

Definition ascii_is_space (c : char) : bool :=
  ((9 <=? c) && (c <=? 13)) || ((28 <=? c) && (c <=? 32)).

Definition ascii_lower (c : char) : char :=
  if (65 <=? c) && (c <=? 90) then c + 32 else c.

#[export] Instance ascii_db : CharDB :=
  {| is_alnum := ascii_is_alnum;
     is_space := ascii_is_space;
     ci_match := fun k c => ascii_lower k =? ascii_lower c;
     str_lower := map ascii_lower |}.

(** A world for the examples: one page can be fetched, every other request
    answers 404, no file can be read, saving succeeds. *)
Definition demo_world : World :=
  {| http_get := fun url =>
       if str_eqb url (lit "http://ok")
       then inr (lit "<p>Climate change affects agriculture.</p>")
       else inl (lit "404 Client Error: Not Found for url: " ++ url);
     soup_find_all_p := fun _ =>
       [(lit "Climate change affects agriculture.",
         lit "Climate change affects agriculture.")];
     soup_get_text := fun _ => lit "Climate change affects agriculture.";
     read_bytes := fun _ => inl (lit "[Errno 2] No such file or directory");
     pdf_pages := fun _ => inr [];
     doc_save := fun _ _ => None |}.

(** A session in which the given sources are loaded and all included. *)
Definition loaded_shell (sp : list (str * list str)) (kws : list str)
  : Shell :=
  {| source_paragraphs := sp; keywords := kws;
     source_checkboxes :=
       map (fun e => (fst e, {| cb_label := fst e; cb_value := true |})) sp;
     filter_column := map fst sp; output_area := []; snack_bar := None;
     progress_visible := false; progress_value := (O, O) |}.

(** The submit of the page that can be fetched, with the keyword
    "climate", and the session it leaves. *)
Definition demo_form : Form :=
  {| url_field := lit "http://ok"; keywords_field := lit "climate";
     file_picker_result := None |}.

Definition demo_ready : Shell :=
  fst (@process_click ascii_db demo_world initial_shell demo_form).

(** A submit of a page that cannot be fetched. *)
Definition demo_form_404 : Form :=
  {| url_field := lit "http://gone"; keywords_field := lit "climate";
     file_picker_result := None |}.

(** A submit without a URL after the file dialog was dismissed. *)
Definition demo_form_dismissed : Form :=
  {| url_field := []; keywords_field := lit "climate";
     file_picker_result := Some {| ev_files := None |} |}.

(** ** Notions the properties are stated with *)

Inductive Phase := Idle | Loading | Ready.

(** Modelled from the spec: the state of the shell's state machine
    ([Idle], [Loading], [Ready]).  The program keeps no such variable; the
    state is read off the widgets: loading while the progress widgets are
    shown, ready once the per-source checkboxes exist, idle otherwise. *)
Definition phase (st : Shell) : Phase :=
  if progress_visible st then Loading
  else match source_checkboxes st with
       | [] => Idle
       | _ :: _ => Ready
       end.

(** [q] is [p] with emphasis markers inserted and nothing else changed. *)
Inductive marked : str -> str -> Prop :=
| marked_nil : marked [] []
| marked_keep : forall c p q, marked p q -> marked (c :: p) (c :: q)
| marked_star : forall p q, marked p q -> marked p (ch_star :: q).

(** The answer of a pattern as the loops of [re_sub] and [re_split] read
    it: a match of at least one character, or none. *)
Definition pos_len (o : option nat) : option nat :=
  match o with
  | Some (S n) => Some (S n)
  | _ => None
  end.

(** The pattern answers at a position inside [a] the same whether or not
    [rest] follows [a], and its matches there end inside [a]. *)
Definition local_at (mt : matcher) (prev : option char) (a rest : str)
  : Prop :=
  pos_len (mt prev (a ++ rest)) = pos_len (mt prev a)
  /\ forall n, pos_len (mt prev a) = Some n -> (n <= length a)%nat.

(** A character, if there is one, satisfies [f]. *)
Definition opt_is (f : char -> bool) (o : option char) : bool :=
  match o with
  | Some c => f c
  | None => false
  end.

Section Notions.
Context {db : CharDB}.

Definition last_char (s : str) : option char := last_before None s.

(** [m] is the keyword [K] up to case. *)
Definition ci_equal (K m : str) : Prop :=
  Forall2 (fun k c => ci_match k c = true) K m.

(** The position between [pre] and [post] is a word boundary. *)
Definition word_boundary (pre post : str) : Prop :=
  at_boundary (last_char pre) (hd_error post) = true.

(** The paragraph [pre ++ m ++ post] has the keyword [K] at [m] as a whole
    word. *)
Definition whole_word_occurrence (K pre m post : str) : Prop :=
  ci_equal K m /\ word_boundary pre (m ++ post)
  /\ word_boundary (pre ++ m) post.

(** The segment [m] of [pre ++ m ++ post] lies inside a longer word. *)
Definition inside_longer_word (pre m post : str) : Prop :=
  Forall (fun c => is_word c = true) m
  /\ (opt_word (last_char pre) = true \/ opt_word (hd_error post) = true).

(** Decides, position by position, that every occurrence of [K] up to case
    in the text lies inside a longer word. *)
Fixpoint only_inside_words (K : str) (prev : option char) (s : str) : bool :=
  (if lit_ci K s
   then forallb is_word (firstn (length K) s)
        && (opt_word prev || opt_word (hd_error (skipn (length K) s)))
   else true)
  && match s with
     | [] => true
     | c :: s' => only_inside_words K (Some c) s'
     end.

(** The first 200 characters of the paragraph of an entry. *)
Definition prefix_key (e : str * str) : str := firstn 200 (snd e).

(** The matching paragraphs of the given sources, in source order and then
    paragraph order, before deduplication. *)
Definition source_candidates (sp : list (str * list str)) (kws : list str)
           (sources : list str) : list (str * str) :=
  flat_map
    (fun source =>
       map (pair source)
           (filter (fun p => paragraph_matches p kws)
                   (match dict_get sp source with
                    | Some ps => ps
                    | None => []
                    end)))
    sources.

(** Those of the included sources of a session. *)
Definition candidates (st : Shell) : list (str * str) :=
  source_candidates (source_paragraphs st) (keywords st)
                    (selected_sources st).

(** What deduplication by [prefix_key] keeps of a list, from left to right,
    when the keys in [seen] were met before. *)
Fixpoint keep_first (seen : list str) (l : list (str * str))
  : list (str * str) :=
  match l with
  | [] => []
  | e :: l' =>
      if existsb (str_eqb (prefix_key e)) seen then keep_first seen l'
      else e :: keep_first (prefix_key e :: seen) l'
  end.

(** The class [[\s,]] of [pat_separators]. *)
Definition is_separator (c : char) : bool := is_space c || (c =? ch_comma).

End Notions.

(** A submit of the page that can be fetched together with a picked file
    that cannot be read. *)
Definition demo_form_bad_file : Form :=
  {| url_field := lit "http://ok"; keywords_field := lit "climate";
     file_picker_result :=
       Some {| ev_files := Some [{| f_name := lit "a.pdf";
                                    f_path := lit "/tmp/a.pdf" |}] |} |}.

(** ** Notions for the properties of the exporter *)

(** "Źródło: " *)
Definition header_plain : str := [377; 114; 243; 100; 322; 111; 58; 32].

(** Two stars side by side somewhere in the text. *)
Fixpoint has_double_star (s : str) : bool :=
  starts_with [ch_star; ch_star] s
  || match s with
     | [] => false
     | _ :: s' => has_double_star s'
     end.

(** The separator of [s.split("\n\n")] as a pattern: [split_blank] is
    [split_loop] on it. *)
Definition pat_blank_sep : matcher := fun _ t =>
  if starts_with [ch_newline; ch_newline] t then Some 2%nat else None.

Definition glue_first (pre : str) (pieces : list str) : list str :=
  match pieces with
  | [] => [pre]
  | x :: l => (pre ++ x) :: l
  end.

Section ExportNotions.
Context {db : CharDB}.

(** A line of the formatted result once the stars of its header are gone. *)
Definition clean_line (kws : list str) (entry : str * str) : str :=
  (header_plain ++ fst entry) ++ [ch_newline; ch_newline]
    ++ bold_keywords (snd entry) kws ++ [ch_newline].

(** The pieces between blank lines of the formatted result of the
    entries, once the stars of the headers are gone: per entry the header
    and the emphasized paragraph; the rule line before a later entry is
    part of the piece of its header. *)
Fixpoint document_pieces (kws : list str) (entries : list (str * str))
  : list str :=
  match entries with
  | [] => []
  | entry :: rest =>
      match rest with
      | [] => [header_plain ++ fst entry;
               bold_keywords (snd entry) kws ++ [ch_newline]]
      | _ :: _ =>
          (header_plain ++ fst entry)
            :: bold_keywords (snd entry) kws
            :: glue_first (lit "---" ++ [ch_newline])
                          (document_pieces kws rest)
      end
  end.

(** An entry whose source label has neither a star nor a line break and
    whose emphasized paragraph is on one line and has no two stars side by
    side. *)
Definition exportable (kws : list str) (entry : str * str) : Prop :=
  Forall (fun c => c <> ch_star /\ c <> ch_newline) (fst entry)
  /\ Forall (fun c => c <> ch_newline) (bold_keywords (snd entry) kws)
  /\ has_double_star (bold_keywords (snd entry) kws) = false.

End ExportNotions.

(** A world for the examples with files: a file holds its own path as
    the text of a single page; no page can be fetched. *)
Definition demo_world_files : World :=
  {| http_get := fun _ => inl (lit "offline");
     soup_find_all_p := fun _ => [];
     soup_get_text := fun _ => [];
     read_bytes := fun path => inr path;
     pdf_pages := fun pdf_bytes => inr [Some pdf_bytes];
     doc_save := fun _ _ => None |}.

(** A submit of two picked files that have the same name. *)
Definition demo_form_same_name : Form :=
  {| url_field := []; keywords_field := lit "pdf";
     file_picker_result :=
       Some {| ev_files :=
                 Some [{| f_name := lit "r.pdf"; f_path := lit "/a/r.pdf" |};
                       {| f_name := lit "r.pdf";
                          f_path := lit "/b/r.pdf" |}] |} |}.

(** ** Notions for the properties of the shell *)

(** The state and the log an early or a normal return leaves. *)
Definition outcome {A : Type} (r : A + A) : A :=
  match r with
  | inl x => x
  | inr x => x
  end.

(** The keys of each dictionary are distinct, and a checkbox belongs to a
    loaded source. *)
Definition session_ok (st : Shell) : Prop :=
  NoDup (map fst (source_paragraphs st))
  /\ NoDup (map fst (source_checkboxes st))
  /\ incl (map fst (source_checkboxes st)) (map fst (source_paragraphs st)).

Section ShellNotions.
Context {db : CharDB} {w : World}.

(** The session [process_click] starts a run from, once the validation has
    passed: the keywords are the new ones, the sources and the checkboxes
    are cleared, the progress widgets are shown. *)
Definition cleared (st : Shell) (kws : list str) : Shell :=
  {| source_paragraphs := []; keywords := kws;
     source_checkboxes := []; filter_column := [];
     output_area := output_area st; snack_bar := snack_bar st;
     progress_visible := true; progress_value := progress_value st |}.

(** The checkbox [process_click] builds for a source. *)
Definition mk_checkbox (source : str) : str * Checkbox :=
  (source, {| cb_label := shorten_text source 40; cb_value := true |}).

(** The key a picked file is loaded under. *)
Definition file_key (f : FilePickerFile) : str :=
  lit "Plik PDF: " ++ f_name f.

(** What the body of the loop over the picked files reads for one file:
    the paragraphs, or the text of the exception that ends the run. *)
Definition file_paragraphs (f : FilePickerFile) : str + list str :=
  match read_bytes (f_path f) with
  | inl e => inl e
  | inr pdf_bytes => extract_text_from_pdf_bytes pdf_bytes
  end.

(** The user ticks or unticks the checkbox of a source: the widget takes
    the value and its [on_change] handler, [update_output], runs. *)
Definition toggle_source (st : Shell) (source : str) (value : bool)
  : Shell :=
  update_output
    {| source_paragraphs := source_paragraphs st; keywords := keywords st;
       source_checkboxes :=
         map (fun e =>
                if str_eqb (fst e) source
                then (fst e, {| cb_label := cb_label (snd e);
                                cb_value := value |})
                else e)
             (source_checkboxes st);
       filter_column := filter_column st; output_area := output_area st;
       snack_bar := snack_bar st; progress_visible := progress_visible st;
       progress_value := progress_value st |}.

End ShellNotions.

(** ** The passes over a text, stated without the [re] module

    These definitions follow the wording of the properties, character by
    character; the properties compare them with the passes of the source,
    which go through [re_sub] and [re_split]. *)

Section Passes.
Context {db : CharDB}.

(** One pass of a keyword [K] over a text, from left to right: [pre] is
    the text already passed, the second text is what is left, the third is
    what the pass writes for it.  Where [K] stands as a whole word it is
    wrapped and the pass goes on behind it; a character is copied only
    where no whole-word occurrence of [K] begins. *)
Inductive scan_wraps (K : str) : str -> str -> str -> Prop :=
| scan_end : forall pre, scan_wraps K pre [] []
| scan_keep : forall pre c s q,
    (forall m post,
        c :: s = m ++ post -> ~ whole_word_occurrence K pre m post) ->
    scan_wraps K (pre ++ [c]) s q ->
    scan_wraps K pre (c :: s) (c :: q)
| scan_wrap : forall pre m post q,
    whole_word_occurrence K pre m post ->
    scan_wraps K (pre ++ m) post q ->
    scan_wraps K pre (m ++ post) (replacer m ++ q).

(** The keywords applied one after the other, each on the text the one
    before it left; an empty keyword is passed over. *)
Inductive emphasized : list str -> str -> str -> Prop :=
| emph_done : forall p, emphasized [] p p
| emph_skip : forall kws p q,
    emphasized kws p q -> emphasized ([] :: kws) p q
| emph_pass : forall K kws p p' q,
    K <> [] -> scan_wraps K [] p p' -> emphasized kws p' q ->
    emphasized (K :: kws) p q.

(** A hyphen directly before a line break goes, with the line break;
    every other character stays. *)
Fixpoint dehyphenate (s : str) : str :=
  match s with
  | [] => []
  | c :: s' =>
      match s' with
      | [] => [c]
      | d :: s'' =>
          if (c =? ch_hyphen) && (d =? ch_newline) then dehyphenate s''
          else c :: dehyphenate s'
      end
  end.

(** A line break becomes a space, unless it follows a line break: then it
    goes.  [after_newline] says that the character before was one. *)
Fixpoint newlines_to_space (after_newline : bool) (s : str) : str :=
  match s with
  | [] => []
  | c :: s' =>
      if c =? ch_newline
      then (if after_newline then [] else [ch_space])
             ++ newlines_to_space true s'
      else c :: newlines_to_space false s'
  end.

(** A whitespace character followed by another begins a run, which
    becomes one space; a whitespace character alone stays as it is.
    [in_run] says that the character before was in a run. *)
Fixpoint collapse_spaces (in_run : bool) (s : str) : str :=
  match s with
  | [] => []
  | c :: s' =>
      if is_space c
      then if in_run then collapse_spaces true s'
           else if opt_is is_space (hd_error s')
                then ch_space :: collapse_spaces true s'
                else c :: collapse_spaces false s'
      else c :: collapse_spaces false s'
  end.

(** The units of a text: whitespace that follows '.', '!' or '?' begins a
    gap, the gap takes all the whitespace that follows, and a gap parts two
    units.  [prev] is the character before, [in_gap] says that it was in a
    gap. *)
Fixpoint sentence_pieces (prev : option char) (in_gap : bool) (s : str)
  : list str :=
  match s with
  | [] => [[]]
  | c :: s' =>
      if is_space c && (in_gap || opt_is is_sentence_end prev)
      then if in_gap then sentence_pieces (Some c) true s'
           else [] :: sentence_pieces (Some c) true s'
      else cons_head c (sentence_pieces (Some c) false s')
  end.



End Passes.


(** * Properties *)

Section ListFacts.

Lemma str_eqb_eq : forall a b, str_eqb a b = true <-> a = b.
Proof.
  induction a as [|x a IH]; destruct b as [|y b]; simpl; split;
    try congruence; try reflexivity.
  - intros H. apply andb_true_iff in H. destruct H as [Hx Hs].
    apply N.eqb_eq in Hx. apply IH in Hs. congruence.
  - intros H. injection H as -> ->. rewrite N.eqb_refl. simpl.
    apply IH. reflexivity.
Qed.

Lemma existsb_str_eqb_In : forall k seen,
    existsb (str_eqb k) seen = true <-> In k seen.
Proof.
  intros k seen. rewrite existsb_exists. split.
  - intros [x [Hin Heq]]. apply str_eqb_eq in Heq. subst. exact Hin.
  - intros Hin. exists k. split; [exact Hin | apply str_eqb_eq; reflexivity].
Qed.

Context {db : CharDB}.

Lemma last_before_cons : forall prev c m,
    last_before prev (c :: m) = last_before (Some c) m.
Proof.
  intros prev c m. unfold last_before. simpl.
  destruct (rev m) as [|x r]; reflexivity.
Qed.

Lemma last_before_app : forall a b prev,
    last_before prev (a ++ b) = last_before (last_before prev a) b.
Proof.
  induction a as [|c a IH]; intros b prev.
  - reflexivity.
  - simpl app. rewrite !last_before_cons. apply IH.
Qed.

Lemma last_before_nonempty : forall m p q,
    m <> [] -> last_before p m = last_before q m.
Proof.
  intros [|c m] p q H; [congruence|].
  rewrite !last_before_cons. reflexivity.
Qed.

End ListFacts.

Section Matching.
Context {db : CharDB}.

Lemma sub_loop_no_match : forall mt repl s prev,
    search_from mt prev s = false -> sub_loop mt repl prev O s = s.
Proof.
  induction s as [|c s IH]; intros prev H.
  - reflexivity.
  - simpl in H. simpl. destruct (mt prev (c :: s)); [discriminate|].
    f_equal. apply IH. exact H.
Qed.

Lemma search_from_app : forall mt pre rest prev n,
    mt (last_before prev pre) rest = Some n ->
    search_from mt prev (pre ++ rest) = true.
Proof.
  induction pre as [|c pre IH]; intros rest prev n H.
  - simpl. unfold last_before in H. simpl in H.
    destruct rest; simpl; rewrite H; reflexivity.
  - simpl. destruct (mt prev (c :: pre ++ rest)); [reflexivity|].
    rewrite last_before_cons in H. eapply IH. exact H.
Qed.

Lemma search_from_inv : forall mt s prev,
    search_from mt prev s = true ->
    exists pre rest n,
      s = pre ++ rest /\ mt (last_before prev pre) rest = Some n.
Proof.
  induction s as [|c s IH]; intros prev H; simpl in H.
  - destruct (mt prev []) as [n|] eqn:E; [|discriminate].
    exists [], [], n. split; [reflexivity | exact E].
  - destruct (mt prev (c :: s)) as [n|] eqn:E.
    + exists [], (c :: s), n. split; [reflexivity | exact E].
    + apply IH in H. destruct H as (pre & rest & n & Hs & Hm).
      exists (c :: pre), rest, n. split.
      * simpl. congruence.
      * rewrite last_before_cons. exact Hm.
Qed.

Lemma ci_equal_length : forall K m, ci_equal K m -> length m = length K.
Proof.
  intros K m H. symmetry. eapply Forall2_length. exact H.
Qed.

Lemma ci_equal_lit_ci : forall K m post,
    ci_equal K m -> lit_ci K (m ++ post) = true.
Proof.
  intros K m post H. induction H as [|k c K m Hkc _ IH]; simpl.
  - reflexivity.
  - rewrite Hkc, IH. reflexivity.
Qed.

Lemma lit_ci_ci_equal : forall K s,
    lit_ci K s = true ->
    ci_equal K (firstn (length K) s)
    /\ s = firstn (length K) s ++ skipn (length K) s.
Proof.
  induction K as [|k K IH]; intros s H.
  - split; [constructor | reflexivity].
  - destruct s as [|c s]; simpl in H; [discriminate|].
    apply andb_true_iff in H. destruct H as [Hkc Hrest].
    destruct (IH s Hrest) as [Hci Hs]. split.
    + simpl. constructor; assumption.
    + simpl. f_equal. exact Hs.
Qed.

(** The pattern of a keyword answers at a whole-word occurrence. *)
Lemma pat_word_at_occurrence : forall K pre m post,
    K <> [] ->
    whole_word_occurrence K pre m post ->
    pat_word K (last_char pre) (m ++ post) = Some (length K).
Proof.
  intros K pre m post HK (Hci & Hb1 & Hb2).
  unfold pat_word. unfold word_boundary in Hb1, Hb2.
  rewrite Hb1. rewrite (ci_equal_lit_ci post Hci). simpl.
  rewrite <- (ci_equal_length Hci).
  rewrite firstn_app, Nat.sub_diag, firstn_all. simpl. rewrite app_nil_r.
  rewrite skipn_app, Nat.sub_diag, skipn_all. simpl.
  assert (Hm : m <> []).
  { intros ->. inversion Hci. congruence. }
  unfold last_char in *. rewrite last_before_app in Hb2.
  rewrite Hb2. reflexivity.
Qed.

(** What an answer of the pattern of a keyword means. *)
Lemma pat_word_inv : forall K prev s n,
    pat_word K prev s = Some n ->
    n = length K /\ lit_ci K s = true
    /\ at_boundary prev (hd_error s) = true
    /\ at_boundary (last_before prev (firstn n s)) (hd_error (skipn n s))
       = true.
Proof.
  intros K prev s n H. unfold pat_word in H.
  destruct (at_boundary prev (hd_error s)) eqn:E1; simpl in H;
    [|discriminate].
  destruct (lit_ci K s) eqn:E2; simpl in H; [|discriminate].
  destruct (at_boundary _ _) eqn:E3 in H; [|discriminate].
  injection H as <-. auto.
Qed.

Lemma only_inside_words_here : forall K prev m post,
    (if lit_ci K (m ++ post)
     then forallb is_word (firstn (length K) (m ++ post))
          && (opt_word prev
              || opt_word (hd_error (skipn (length K) (m ++ post))))
     else true) = true ->
    ci_equal K m ->
    Forall (fun c => is_word c = true) m
    /\ (opt_word prev = true \/ opt_word (hd_error post) = true).
Proof.
  intros K prev m post Hhere Hci.
  rewrite (ci_equal_lit_ci post Hci) in Hhere.
  rewrite <- (ci_equal_length Hci) in Hhere.
  rewrite firstn_app, Nat.sub_diag, firstn_all in Hhere.
  simpl in Hhere. rewrite app_nil_r in Hhere.
  rewrite skipn_app, Nat.sub_diag, skipn_all in Hhere. simpl in Hhere.
  apply andb_true_iff in Hhere. destruct Hhere as [Hw Hn]. split.
  - apply Forall_forall. apply forallb_forall. exact Hw.
  - apply orb_true_iff in Hn. exact Hn.
Qed.

Lemma only_inside_words_sound : forall K s prev,
    only_inside_words K prev s = true ->
    forall pre m post,
      s = pre ++ m ++ post -> ci_equal K m ->
      Forall (fun c => is_word c = true) m
      /\ (opt_word (last_before prev pre) = true
          \/ opt_word (hd_error post) = true).
Proof.
  intros K s. induction s as [|c s IH]; intros prev H pre m post Hs Hci;
    simpl in H; apply andb_true_iff in H; destruct H as [Hhere Hrest].
  - destruct pre; [|discriminate]. simpl in Hs. rewrite Hs in Hhere.
    eapply only_inside_words_here; eauto.
  - destruct pre as [|p pre].
    + simpl in Hs. rewrite Hs in Hhere.
      eapply only_inside_words_here; eauto.
    + simpl in Hs. injection Hs as -> ->.
      rewrite last_before_cons. eapply IH; eauto.
Qed.

End Matching.

Section KeywordFilter.
Context {db : CharDB}.

(** C1: for a non-empty keyword [K], if [K] occurs in the paragraph [P] as a
    whole word (up to case, with a word boundary on both sides) then
    [paragraph_matches P [K]] is true; if every occurrence of [K] in [P] lies
    inside a longer word then [paragraph_matches P [K]] is false. *)
Theorem paragraph_matches_whole_word : forall P K : str,
    K <> [] ->
    (forall pre m post,
        P = pre ++ m ++ post -> whole_word_occurrence K pre m post ->
        paragraph_matches P [K] = true)
    /\ ((forall pre m post,
            P = pre ++ m ++ post -> ci_equal K m ->
            inside_longer_word pre m post) ->
        paragraph_matches P [K] = false).
Proof.
  intros P K HK. split.
  - intros pre m post HP Hocc. simpl.
    destruct K as [|k K']; [congruence|]. simpl is_empty. cbv iota.
    unfold re_search. rewrite HP.
    erewrite search_from_app; [reflexivity|].
    apply pat_word_at_occurrence; [discriminate | exact Hocc].
  - intros Hall. simpl.
    destruct K as [|k K']; [congruence|]. simpl is_empty. cbv iota.
    destruct (re_search (pat_word (k :: K')) P) eqn:E; [|reflexivity].
    exfalso. unfold re_search in E.
    apply search_from_inv in E. destruct E as (pre & rest & n & HP & Hm).
    apply pat_word_inv in Hm. destruct Hm as (-> & Hlit & Hb1 & Hb2).
    apply lit_ci_ci_equal in Hlit. destruct Hlit as [Hci Hrest].
    set (m := firstn (length (k :: K')) rest) in *.
    set (post := skipn (length (k :: K')) rest) in *.
    assert (HP' : P = pre ++ m ++ post) by congruence.
    destruct (Hall pre m post HP' Hci) as [Hw Hadj].
    assert (Hm : exists c m', m = c :: m').
    { inversion Hci as [|? c ? m' ? ? Hk Hm']. exists c, m'. reflexivity. }
    destruct Hm as (c & m' & Hcm).
    assert (Hfirst : opt_word (hd_error rest) = true).
    { rewrite Hrest, Hcm. simpl. rewrite Hcm in Hw.
      inversion Hw; assumption. }
    assert (Hlast : opt_word (last_before (last_before None pre) m) = true).
    { rewrite Hcm in Hw |- *. unfold last_before at 1.
      destruct (rev (c :: m')) as [|x r] eqn:Er.
      - apply (f_equal (@length _)) in Er. rewrite length_rev in Er.
        discriminate.
      - simpl. rewrite Forall_forall in Hw. apply Hw.
        apply in_rev. rewrite Er. left. reflexivity. }
    unfold at_boundary in Hb1, Hb2.
    rewrite Hfirst in Hb1. rewrite Hlast in Hb2.
    unfold last_char in Hadj.
    destruct Hadj as [H | H]; rewrite H in *; discriminate.
Qed.

(** C10: when no non-empty keyword of the list matches the paragraph,
    [bold_keywords] returns the paragraph unchanged. *)
Theorem bold_keywords_without_match : forall (P : str) (K : list str),
    paragraph_matches P K = false -> bold_keywords P K = P.
Proof.
  intros P K. induction K as [|kw K IH]; intros H; simpl in *.
  - reflexivity.
  - destruct (is_empty kw); [apply IH; exact H|].
    destruct (re_search (pat_word kw) P) eqn:E; [discriminate|].
    unfold re_sub. unfold re_search in E.
    rewrite (sub_loop_no_match _ _ _ _ E). apply IH. exact H.
Qed.

End KeywordFilter.

Lemma paragraph_matches_whole_word_witness :
  paragraph_matches (lit "My Cat sat.") [lit "cat"] = true
  /\ paragraph_matches (lit "category") [lit "cat"] = false.
Proof.
  split.
  - refine (proj1 (@paragraph_matches_whole_word ascii_db
                     (lit "My Cat sat.") (lit "cat") _)
                  (lit "My ") (lit "Cat") (lit " sat.") eq_refl _).
    + discriminate.
    + repeat split; repeat constructor.
  - refine (proj2 (@paragraph_matches_whole_word ascii_db
                     (lit "category") (lit "cat") _) _).
    + discriminate.
    + intros pre m post E H.
      refine (@only_inside_words_sound ascii_db (lit "cat") (lit "category")
                None _ pre m post E H).
      vm_compute. reflexivity.
Defined.

Lemma bold_keywords_without_match_witness :
  paragraph_matches (lit "my category") [lit "cat"; []] = false
  /\ bold_keywords (lit "my category") [lit "cat"; []] = lit "my category".
Proof.
  split.
  - vm_compute. reflexivity.
  - apply (@bold_keywords_without_match ascii_db). vm_compute. reflexivity.
Defined.

Section Deduplication.

Lemma keep_first_app : forall l1 l2 seen,
    keep_first seen (l1 ++ l2)
    = keep_first seen l1
      ++ keep_first (rev (map prefix_key (keep_first seen l1)) ++ seen) l2.
Proof.
  induction l1 as [|e l1 IH]; intros l2 seen; simpl.
  - reflexivity.
  - destruct (existsb (str_eqb (prefix_key e)) seen).
    + apply IH.
    + simpl. rewrite IH. rewrite <- app_assoc. reflexivity.
Qed.

Lemma keep_first_fresh : forall l seen e,
    In e (keep_first seen l) -> ~ In (prefix_key e) seen.
Proof.
  induction l as [|x l IH]; intros seen e H; simpl in H.
  - contradiction.
  - destruct (existsb (str_eqb (prefix_key x)) seen) eqn:E.
    + apply IH. exact H.
    + destruct H as [-> | H].
      * intros Hin. apply existsb_str_eqb_In in Hin. congruence.
      * intros Hin. apply IH in H. apply H. right. exact Hin.
Qed.

Lemma keep_first_NoDup : forall l seen,
    NoDup (map prefix_key (keep_first seen l)).
Proof.
  induction l as [|x l IH]; intros seen; simpl.
  - constructor.
  - destruct (existsb (str_eqb (prefix_key x)) seen).
    + apply IH.
    + simpl. constructor; [|apply IH].
      intros Hin. apply in_map_iff in Hin. destruct Hin as (e & Hk & He).
      apply keep_first_fresh in He. apply He. left. congruence.
Qed.

Lemma keep_first_is_first : forall l seen e,
    In e (keep_first seen l) ->
    exists before after,
      l = before ++ e :: after
      /\ ~ In (prefix_key e) (map prefix_key before).
Proof.
  induction l as [|x l IH]; intros seen e H; simpl in H.
  - contradiction.
  - destruct (existsb (str_eqb (prefix_key x)) seen) eqn:E.
    + pose proof (keep_first_fresh _ _ _ H) as Hfresh.
      destruct (IH _ _ H) as (b & a & -> & Hb).
      exists (x :: b), a. split; [reflexivity|].
      simpl. intros [Hx | Hin]; [|contradiction].
      apply Hfresh. apply existsb_str_eqb_In. rewrite <- Hx. exact E.
    + destruct H as [-> | H].
      * exists [], l. split; [reflexivity | simpl; tauto].
      * pose proof (keep_first_fresh _ _ _ H) as Hfresh.
        destruct (IH _ _ H) as (b & a & -> & Hb).
        exists (x :: b), a. split; [reflexivity|].
        simpl. intros [Hx | Hin]; [|contradiction].
        apply Hfresh. left. exact Hx.
Qed.

Lemma keep_first_covers : forall l seen e,
    In e l ->
    In (prefix_key e) seen
    \/ In (prefix_key e) (map prefix_key (keep_first seen l)).
Proof.
  induction l as [|x l IH]; intros seen e H; simpl in *.
  - contradiction.
  - destruct (existsb (str_eqb (prefix_key x)) seen) eqn:E.
    + destruct H as [-> | H].
      * left. apply existsb_str_eqb_In. exact E.
      * apply IH. exact H.
    + destruct H as [-> | H].
      * right. left. reflexivity.
      * destruct (IH (prefix_key x :: seen) e H) as [[Hx | Hs] | Hk].
        -- right. left. exact Hx.
        -- left. exact Hs.
        -- right. right. exact Hk.
Qed.

Context {db : CharDB}.

Lemma select_source_keep_first : forall kws source ps seen acc,
    select_source kws source ps seen acc
    = (rev (map prefix_key
                (keep_first seen
                   (map (pair source)
                        (filter (fun p => paragraph_matches p kws) ps))))
         ++ seen,
       rev (keep_first seen
              (map (pair source)
                   (filter (fun p => paragraph_matches p kws) ps)))
         ++ acc).
Proof.
  intros kws source. induction ps as [|p ps IH]; intros seen acc.
  - reflexivity.
  - cbn [select_source filter]. destruct (paragraph_matches p kws).
    + cbn [map keep_first]. cbv zeta.
      change (firstn 200 p) with (prefix_key (source, p)).
      destruct (existsb (str_eqb (prefix_key (source, p))) seen).
      * apply IH.
      * rewrite IH. cbn [map rev]. rewrite <- !app_assoc. reflexivity.
    + apply IH.
Qed.

Lemma select_sources_keep_first : forall sp kws sources seen acc,
    select_sources sp kws sources seen acc
    = (rev (map prefix_key
                (keep_first seen (source_candidates sp kws sources)))
         ++ seen,
       rev (keep_first seen (source_candidates sp kws sources)) ++ acc).
Proof.
  intros sp kws. induction sources as [|source rest IH]; intros seen acc.
  - reflexivity.
  - simpl. rewrite select_source_keep_first. rewrite IH.
    rewrite keep_first_app. rewrite map_app, !rev_app_distr.
    rewrite <- !app_assoc. reflexivity.
Qed.

Lemma select_keep_first : forall st,
    select st = keep_first [] (candidates st).
Proof.
  intros st. unfold select.
  rewrite select_sources_keep_first. simpl.
  change (source_candidates (source_paragraphs st) (keywords st)
            (selected_sources st)) with (candidates st).
  rewrite app_nil_r, rev_involutive. reflexivity.
Qed.

(** C2: the selection has no two entries whose paragraphs share their first
    200 characters, whatever their sources; an entry of the selection is the
    first matching paragraph with its prefix in source order then paragraph
    order; and every prefix of a matching paragraph of an included source is
    represented. *)
Theorem select_deduplicates : forall st : Shell,
    NoDup (map prefix_key (select st))
    /\ (forall e, In e (select st) ->
                  exists before after,
                    candidates st = before ++ e :: after
                    /\ ~ In (prefix_key e) (map prefix_key before))
    /\ (forall e, In e (candidates st) ->
                  In (prefix_key e) (map prefix_key (select st))).
Proof.
  intros st. rewrite select_keep_first. repeat split.
  - apply keep_first_NoDup.
  - intros e H. eapply keep_first_is_first. exact H.
  - intros e H. destruct (keep_first_covers _ [] _ H) as [[] | Hk].
    exact Hk.
Qed.

Lemma paragraph_matches_empty_keywords : forall p kws,
    Forall (fun k => k = []) kws -> paragraph_matches p kws = false.
Proof.
  intros p kws H. induction H as [|k kws Hk _ IH]; simpl.
  - reflexivity.
  - rewrite Hk. simpl. exact IH.
Qed.

End Deduplication.

Section Stripping.
Variable f : char -> bool.

Lemma drop_while_split : forall s,
    exists t, s = t ++ drop_while f s /\ forallb f t = true.
Proof.
  induction s as [|c s IH]; simpl.
  - exists []. split; reflexivity.
  - destruct (f c) eqn:E.
    + destruct IH as (t & Hs & Ht). exists (c :: t). split.
      * simpl. congruence.
      * simpl. rewrite E. exact Ht.
    + exists []. split; reflexivity.
Qed.

Lemma drop_while_head : forall s c t, drop_while f s = c :: t -> f c = false.
Proof.
  induction s as [|x s IH]; intros c t H; simpl in H.
  - discriminate.
  - destruct (f x) eqn:E.
    + eapply IH. exact H.
    + injection H as -> _. exact E.
Qed.

Lemma drop_while_fixed : forall s,
    match s with [] => True | c :: _ => f c = false end ->
    drop_while f s = s.
Proof.
  intros [|c s] H; simpl.
  - reflexivity.
  - rewrite H. reflexivity.
Qed.

Lemma drop_while_idem : forall s,
    drop_while f (drop_while f s) = drop_while f s.
Proof.
  intros s. apply drop_while_fixed.
  destruct (drop_while f s) as [|c t] eqn:E; [exact I|].
  eapply drop_while_head. exact E.
Qed.

Lemma rstrip_by_split : forall s,
    exists t, s = rstrip_by f s ++ t /\ forallb f t = true.
Proof.
  intros s. unfold rstrip_by.
  destruct (drop_while_split (rev s)) as (t & Hs & Ht).
  exists (rev t). split.
  - rewrite <- rev_app_distr, <- Hs, rev_involutive. reflexivity.
  - rewrite forallb_forall in *. intros x Hx. apply Ht.
    apply in_rev. exact Hx.
Qed.

Lemma rstrip_by_idem : forall s, rstrip_by f (rstrip_by f s) = rstrip_by f s.
Proof.
  intros s. unfold rstrip_by. rewrite rev_involutive, drop_while_idem.
  reflexivity.
Qed.

Lemma rstrip_by_keeps_head : forall s,
    match s with [] => True | c :: _ => f c = false end ->
    match rstrip_by f s with [] => True | c :: _ => f c = false end.
Proof.
  intros s H. destruct (rstrip_by_split s) as (t & Hs & _).
  destruct (rstrip_by f s) as [|c r]; [exact I|].
  rewrite Hs in H. exact H.
Qed.

End Stripping.

Section Keywords.
Context {db : CharDB}.

Lemma strip_idem : forall s, strip (strip s) = strip s.
Proof.
  intros s. unfold strip.
  rewrite (drop_while_fixed is_space (rstrip_by is_space _)).
  - apply rstrip_by_idem.
  - apply rstrip_by_keeps_head.
    destruct (drop_while is_space s) as [|c t] eqn:E; [exact I|].
    eapply drop_while_head. exact E.
Qed.

Lemma stripped_nonempty_spec : forall pieces u,
    In u (stripped_nonempty pieces) -> u <> [] /\ strip u = u.
Proof.
  intros pieces u H. unfold stripped_nonempty in H.
  apply filter_In in H. destruct H as [Hin Hne].
  apply in_map_iff in Hin. destruct Hin as (p & <- & _).
  split.
  - intros E. rewrite E in Hne. discriminate.
  - apply strip_idem.
Qed.

(** C5, as amended: when every token of the keyword list is empty (the
    empty list included) the selection is empty; and a keyword list built
    from the keyword field holds no empty and no whitespace-only token. *)
Theorem select_empty_keywords : forall st : Shell,
    (Forall (fun k => k = []) (keywords st) -> select st = [])
    /\ (forall raw k, In k (parse_keywords raw) -> k <> [] /\ strip k <> []).
Proof.
  intros st. split.
  - intros H. rewrite select_keep_first.
    assert (E : candidates st = []).
    { unfold candidates, source_candidates.
      induction (selected_sources st) as [|source rest IH]; simpl.
      - reflexivity.
      - rewrite IH, app_nil_r.
        destruct (dict_get (source_paragraphs st) source) as [ps|];
          [|reflexivity].
        induction ps as [|p ps IHps]; simpl; [reflexivity|].
        rewrite (paragraph_matches_empty_keywords p H). exact IHps. }
    rewrite E. reflexivity.
  - intros raw k H. apply stripped_nonempty_spec in H.
    destruct H as [Hne Hs]. split; [exact Hne | congruence].
Qed.

End Keywords.

(** C5, as stated, fails: a keyword of one space matches a paragraph that
    has a space between two words. *)
Lemma select_whitespace_keyword :
  Forall (fun k => strip k = [])
         (keywords (loaded_shell [(lit "URL: x", [lit "a b"])] [lit " "]))
  /\ select (loaded_shell [(lit "URL: x", [lit "a b"])] [lit " "])
     = [(lit "URL: x", lit "a b")].
Proof.
  split.
  - repeat constructor.
  - vm_compute. reflexivity.
Qed.

Lemma select_empty_keywords_witness :
  Forall (fun k => k = [])
         (keywords (loaded_shell [(lit "URL: x", [lit "a b"])] [[]; []]))
  /\ select (loaded_shell [(lit "URL: x", [lit "a b"])] [[]; []]) = []
  /\ In (lit "b") (parse_keywords (lit "a, b ,"))
  /\ strip (lit "b") <> [].
Proof.
  destruct (@select_empty_keywords ascii_db
              (loaded_shell [(lit "URL: x", [lit "a b"])] [[]; []]))
    as [Hsel Htok].
  assert (Hin : In (lit "b") (parse_keywords (lit "a, b ,")))
    by (vm_compute; tauto).
  split; [|split; [|split]].
  - repeat constructor.
  - apply Hsel. repeat constructor.
  - exact Hin.
  - exact (proj2 (Htok _ _ Hin)).
Defined.

Section ShellFacts.
Context {db : CharDB} {w : World}.

(** The two validation exits of [process_click]: without a URL and without
    any result of the file dialog, or with an empty keyword field, nothing
    but the notification changes and no collaborator is called. *)
Lemma process_click_validation : forall (st : Shell) (form : Form),
    (strip (url_field form) = [] /\ file_picker_result form = None)
    \/ strip (keywords_field form) = [] ->
    exists msg, process_click st form = (with_snack st msg, []).
Proof.
  intros st form H. unfold process_click.
  destruct (is_empty (strip (url_field form))
            && match file_picker_result form with
               | None => true
               | Some _ => false
               end) eqn:E1.
  - eexists. reflexivity.
  - destruct H as [[Hu Hf] | Hk].
    + rewrite Hu, Hf in E1. discriminate.
    + rewrite Hk. simpl. eexists. reflexivity.
Qed.

(** C4, as amended: when the fetch of the URL fails, the error is shown as
    a notification, only the fetch was attempted, and no partial session is
    kept: the source mapping, the checkboxes and the filter column are
    empty, the keyword list is the one just entered, the displayed output is
    what it was before the submit, and the shell is idle. *)
Theorem process_click_fetch_failure :
  forall (st : Shell) (form : Form) (e : str),
    strip (url_field form) <> [] ->
    strip (keywords_field form) <> [] ->
    http_get (strip (url_field form)) = inl e ->
    process_click st form
    = ({| source_paragraphs := [];
          keywords := parse_keywords (strip (keywords_field form));
          source_checkboxes := []; filter_column := [];
          output_area := output_area st;
          snack_bar :=
            Some (msg_blad ++ lit " przy pobieraniu strony: " ++ e);
          progress_visible := false;
          progress_value := progress_value st |},
       [EvGet (strip (url_field form))])
    /\ phase (fst (process_click st form)) = Idle.
Proof.
  intros st form e Hu Hk He.
  assert (E : process_click st form
              = ({| source_paragraphs := [];
                    keywords := parse_keywords (strip (keywords_field form));
                    source_checkboxes := []; filter_column := [];
                    output_area := output_area st;
                    snack_bar :=
                      Some (msg_blad ++ lit " przy pobieraniu strony: " ++ e);
                    progress_visible := false;
                    progress_value := progress_value st |},
                 [EvGet (strip (url_field form))])).
  { unfold process_click.
    destruct (strip (url_field form)) as [|u us] eqn:Eu; [congruence|].
    destruct (strip (keywords_field form)) as [|k ks] eqn:Ek; [congruence|].
    cbn [is_empty andb]. unfold extract_text_from_url. rewrite He.
    reflexivity. }
  split; [exact E | rewrite E; reflexivity].
Qed.

End ShellFacts.

(** C4, as stated, fails: after a failed fetch the source mapping of a
    ready session is not what it was before the submit. *)
Lemma process_click_fetch_failure_clears :
  http_get (World := demo_world) (strip (url_field demo_form_404))
  = inl (lit "404 Client Error: Not Found for url: http://gone")
  /\ source_paragraphs demo_ready
     = [(lit "URL: http://ok", [lit "Climate change affects agriculture."])]
  /\ source_paragraphs
       (fst (@process_click ascii_db demo_world demo_ready demo_form_404))
     = [].
Proof.
  repeat split; vm_compute; reflexivity.
Qed.

Lemma process_click_fetch_failure_witness :
  strip (url_field demo_form_404) <> []
  /\ phase (fst (@process_click ascii_db demo_world demo_ready demo_form_404))
     = Idle.
Proof.
  split.
  - vm_compute. discriminate.
  - refine (proj2 (@process_click_fetch_failure ascii_db demo_world
                     demo_ready demo_form_404
                     (lit "404 Client Error: Not Found for url: http://gone")
                     _ _ _)).
    + vm_compute. discriminate.
    + vm_compute. discriminate.
    + vm_compute. reflexivity.
Defined.

(** C7 at the failing input: a submit without a URL, after the file dialog
    was dismissed so that no file is selected, passes the validation: no
    notification is shown and the ready session is wiped. *)
Theorem process_click_dismissed_dialog :
  strip (url_field demo_form_dismissed) = []
  /\ picked_files demo_form_dismissed = []
  /\ source_paragraphs demo_ready
     = [(lit "URL: http://ok", [lit "Climate change affects agriculture."])]
  /\ @process_click ascii_db demo_world demo_ready demo_form_dismissed
     = ({| source_paragraphs := []; keywords := [lit "climate"];
           source_checkboxes := []; filter_column := [];
           output_area := []; snack_bar := None;
           progress_visible := false; progress_value := (O, O) |}, []).
Proof.
  repeat split; vm_compute; reflexivity.
Qed.

(** C3 at the failing input: the exported paragraphs of the formatted
    result for the keyword "climate" keep the emphasis markers around the
    keyword, while the markers of the source header are removed. *)
Theorem docx_paragraphs_keeps_keyword_markers :
  build_result_text_with_sources
    [(lit "URL: x", lit "Climate change affects agriculture.")]
    [lit "climate"]
  = header_open ++ lit "URL: x**" ++ [ch_newline; ch_newline]
      ++ lit "*Climate* change affects agriculture." ++ [ch_newline]
  /\ docx_paragraphs
       (build_result_text_with_sources
          [(lit "URL: x", lit "Climate change affects agriculture.")]
          [lit "climate"])
     = [[377; 114; 243; 100; 322; 111; 58; 32] ++ lit "URL: x";
        lit "*Climate* change affects agriculture."].
Proof.
  split; vm_compute; reflexivity.
Qed.

Section Exporter.
Context {db : CharDB} {w : World}.






End Exporter.


Section RegexLoops.
Variable mt : matcher.

Lemma sub_loop_pos_len : forall repl prev c s,
    sub_loop mt repl prev O (c :: s)
    = match pos_len (mt prev (c :: s)) with
      | Some n => repl (firstn n (c :: s))
                    ++ sub_loop mt repl (Some c) (pred n) s
      | None => c :: sub_loop mt repl (Some c) O s
      end.
Proof.
  intros repl prev c s. cbn [sub_loop].
  destruct (mt prev (c :: s)) as [[|n]|]; reflexivity.
Qed.

Lemma split_loop_pos_len : forall prev c s,
    split_loop mt prev O (c :: s)
    = match pos_len (mt prev (c :: s)) with
      | Some n => [] :: split_loop mt (Some c) (pred n) s
      | None => cons_head c (split_loop mt (Some c) O s)
      end.
Proof.
  intros prev c s. cbn [split_loop].
  destruct (mt prev (c :: s)) as [[|n]|]; reflexivity.
Qed.

Lemma pos_len_positive : forall o n, pos_len o = Some n -> n <> O.
Proof.
  intros [[|k]|] n H; simpl in H; try discriminate.
  injection H as <-. discriminate.
Qed.

(** The scan of [a ++ rest] is the scan of [a] followed by the scan of
    [rest] when the pattern is local at every position of [a]. *)
Lemma sub_loop_app : forall repl a rest prev skip,
    (skip <= length a)%nat ->
    (forall a1 a2, a = a1 ++ a2 -> a2 <> [] ->
                   local_at mt (last_before prev a1) a2 rest) ->
    sub_loop mt repl prev skip (a ++ rest)
    = sub_loop mt repl prev skip a
        ++ sub_loop mt repl (last_before prev a) O rest.
Proof.
  intros repl a rest. induction a as [|c a IH]; intros prev skip Hskip Hloc.
  - simpl in Hskip. assert (skip = O) by lia. subst skip.
    destruct rest; reflexivity.
  - assert (Hloc' : forall a1 a2, a = a1 ++ a2 -> a2 <> [] ->
                      local_at mt (last_before (Some c) a1) a2 rest).
    { intros a1 a2 Ha Hne. rewrite <- (last_before_cons prev).
      apply Hloc; [simpl; congruence | exact Hne]. }
    rewrite last_before_cons. destruct skip as [|k].
    + cbn [app]. rewrite !sub_loop_pos_len.
      destruct (Hloc [] (c :: a) eq_refl ltac:(discriminate)) as [Heq Hle].
      cbn [app] in Heq. change (last_before prev []) with prev in Heq, Hle.
      rewrite Heq.
      destruct (pos_len (mt prev (c :: a))) as [n|] eqn:E.
      * pose proof (Hle n eq_refl) as Hn. simpl in Hn.
        pose proof (pos_len_positive _ E) as Hpos.
        rewrite (IH (Some c) (pred n)); [|lia|exact Hloc'].
        rewrite app_assoc. f_equal. f_equal.
        change (c :: a ++ rest) with ((c :: a) ++ rest).
        rewrite firstn_app.
        replace (n - length (c :: a))%nat with O by (simpl; lia).
        rewrite firstn_O, app_nil_r. reflexivity.
      * rewrite (IH (Some c) O); [reflexivity|lia|exact Hloc'].
    + simpl. apply IH; [simpl in Hskip; lia | exact Hloc'].
Qed.

(** After a match, the scan resumes behind it. *)
Lemma sub_loop_skip : forall repl m rest prev,
    sub_loop mt repl prev (length m) (m ++ rest)
    = sub_loop mt repl (last_before prev m) O rest.
Proof.
  intros repl. induction m as [|c m IH]; intros rest prev.
  - destruct rest; reflexivity.
  - simpl. rewrite IH. rewrite last_before_cons. reflexivity.
Qed.

Lemma sub_loop_at_match : forall repl m rest prev,
    m <> [] ->
    mt prev (m ++ rest) = Some (length m) ->
    sub_loop mt repl prev O (m ++ rest)
    = repl m ++ sub_loop mt repl (last_before prev m) O rest.
Proof.
  intros repl [|c m] rest prev Hne Hm; [congruence|].
  cbn [app] in *. rewrite sub_loop_pos_len, Hm.
  cbn [length pos_len Nat.pred].
  rewrite sub_loop_skip, last_before_cons. f_equal. f_equal.
  cbn [firstn]. f_equal.
  rewrite firstn_app, Nat.sub_diag, firstn_all, firstn_O. apply app_nil_r.
Qed.

(** The scan reads the character before its start only through the answer
    of the pattern at the first position. *)
Lemma sub_loop_prev : forall repl s p q,
    pos_len (mt p s) = pos_len (mt q s) ->
    sub_loop mt repl p O s = sub_loop mt repl q O s.
Proof.
  intros repl [|c s] p q H; [reflexivity|].
  rewrite !sub_loop_pos_len, H. reflexivity.
Qed.

Lemma split_loop_nonempty : forall s prev skip,
    split_loop mt prev skip s <> [].
Proof.
  induction s as [|c s IH]; intros prev skip; simpl.
  - discriminate.
  - destruct skip; [|apply IH].
    destruct (mt prev (c :: s)) as [[|n]|]; try discriminate;
      destruct (split_loop mt (Some c) O s) eqn:E; try discriminate;
      apply IH in E; contradiction.
Qed.

Lemma split_loop_skip : forall m rest prev,
    split_loop mt prev (length m) (m ++ rest)
    = split_loop mt (last_before prev m) O rest.
Proof.
  induction m as [|c m IH]; intros rest prev.
  - destruct rest; reflexivity.
  - simpl. rewrite IH. rewrite last_before_cons. reflexivity.
Qed.

(** Splitting at a match that follows a part on which the pattern is
    local. *)
Lemma split_loop_app_match : forall a m rest prev skip,
    (skip <= length a)%nat ->
    (forall a1 a2, a = a1 ++ a2 -> a2 <> [] ->
                   local_at mt (last_before prev a1) a2 (m ++ rest)) ->
    m <> [] ->
    mt (last_before prev a) (m ++ rest) = Some (length m) ->
    split_loop mt prev skip (a ++ m ++ rest)
    = split_loop mt prev skip a
        ++ split_loop mt (last_before prev (a ++ m)) O rest.
Proof.
  induction a as [|c a IH]; intros m rest prev skip Hskip Hloc Hne Hm.
  - simpl in Hskip. assert (skip = O) by lia. subst skip.
    destruct m as [|x m]; [congruence|].
    cbn [app]. rewrite split_loop_pos_len.
    change (last_before prev []) with prev in Hm. cbn [app] in Hm.
    rewrite Hm. cbn [length pos_len Nat.pred].
    rewrite split_loop_skip, last_before_cons. reflexivity.
  - assert (Hloc' : forall a1 a2, a = a1 ++ a2 -> a2 <> [] ->
                      local_at mt (last_before (Some c) a1) a2 (m ++ rest)).
    { intros a1 a2 Ha Hne2. rewrite <- (last_before_cons prev).
      apply Hloc; [simpl; congruence | exact Hne2]. }
    rewrite last_before_cons in Hm.
    change ((c :: a) ++ m) with (c :: a ++ m). rewrite last_before_cons.
    destruct skip as [|k].
    + cbn [app]. rewrite !split_loop_pos_len.
      destruct (Hloc [] (c :: a) eq_refl ltac:(discriminate)) as [Heq Hle].
      cbn [app] in Heq. change (last_before prev []) with prev in Heq, Hle.
      rewrite Heq.
      destruct (pos_len (mt prev (c :: a))) as [n|] eqn:E.
      * pose proof (Hle n eq_refl) as Hn. simpl in Hn.
        pose proof (pos_len_positive _ E) as Hpos.
        rewrite (IH m rest (Some c) (pred n)); try assumption; [|lia].
        reflexivity.
      * rewrite (IH m rest (Some c) O); try assumption; [|lia].
        destruct (split_loop mt (Some c) O a) as [|p ps] eqn:Es.
        -- apply split_loop_nonempty in Es. contradiction.
        -- reflexivity.
    + simpl. apply IH; try assumption. simpl in Hskip. lia.
Qed.

Lemma split_loop_prev : forall s p q,
    pos_len (mt p s) = pos_len (mt q s) ->
    split_loop mt p O s = split_loop mt q O s.
Proof.
  intros [|c s] p q H; [reflexivity|].
  rewrite !split_loop_pos_len, H. reflexivity.
Qed.

End RegexLoops.

Section Marking.

Lemma marked_refl : forall p, marked p p.
Proof.
  induction p as [|c p IH]; constructor; exact IH.
Qed.

Lemma marked_app : forall p q p' q',
    marked p q -> marked p' q' -> marked (p ++ p') (q ++ q').
Proof.
  intros p q p' q' H H'. induction H; simpl.
  - exact H'.
  - constructor. exact IHmarked.
  - constructor. exact IHmarked.
Qed.

Lemma marked_trans : forall q r, marked q r -> forall p, marked p q ->
                                                       marked p r.
Proof.
  intros q r H. induction H as [|c q r H IH|q r H IH]; intros p Hp.
  - exact Hp.
  - inversion Hp as [|c' p' q' Hp'|p' q' Hp']; subst.
    + constructor. apply IH. exact Hp'.
    + constructor. apply IH. exact Hp'.
  - constructor. apply IH. exact Hp.
Qed.

Lemma marked_replacer : forall m, marked m (replacer m).
Proof.
  intros m. unfold replacer. simpl. constructor.
  rewrite <- (app_nil_r m) at 1. apply marked_app.
  - apply marked_refl.
  - constructor. constructor.
Qed.

(** A substitution with [replacer] only inserts markers. *)
Lemma sub_loop_marked : forall mt s prev skip,
    marked (skipn skip s) (sub_loop mt replacer prev skip s).
Proof.
  intros mt. induction s as [|c s IH]; intros prev skip.
  - destruct skip; constructor.
  - destruct skip as [|k].
    + rewrite sub_loop_pos_len. cbn [skipn].
      destruct (pos_len (mt prev (c :: s))) as [n|] eqn:E.
      * destruct n as [|n]; [apply pos_len_positive in E; congruence|].
        cbn [Nat.pred].
        rewrite <- (firstn_skipn (S n) (c :: s)) at 1.
        apply marked_app; [apply marked_replacer|].
        cbn [skipn]. apply IH.
      * constructor. apply (IH (Some c) O).
    + simpl. apply IH.
Qed.

End Marking.

Section Emphasis.
Context {db : CharDB}.

Lemma bold_keywords_marked : forall kws p, marked p (bold_keywords p kws).
Proof.
  induction kws as [|kw kws IH]; intros p; simpl.
  - apply marked_refl.
  - destruct (is_empty kw); [apply IH|].
    eapply marked_trans; [apply IH|].
    unfold re_sub. apply (sub_loop_marked (pat_word kw) p None O).
Qed.

Lemma bold_keywords_app : forall ks1 ks2 p,
    bold_keywords p (ks1 ++ ks2) = bold_keywords (bold_keywords p ks1) ks2.
Proof.
  induction ks1 as [|kw ks1 IH]; intros ks2 p; simpl.
  - reflexivity.
  - destruct (is_empty kw); apply IH.
Qed.

Lemma bold_keywords_single : forall K p,
    K <> [] -> bold_keywords p [K] = re_sub (pat_word K) replacer p.
Proof.
  intros [|k K] p H; [congruence | reflexivity].
Qed.

Lemma lit_ci_length : forall K s,
    lit_ci K s = true -> (length K <= length s)%nat.
Proof.
  induction K as [|k K IH]; intros s H; simpl.
  - lia.
  - destruct s as [|c s]; simpl in H; [discriminate|].
    apply andb_true_iff in H. destruct H as [_ H]. apply IH in H.
    simpl. lia.
Qed.

Lemma lit_ci_app_le : forall K a r,
    (length K <= length a)%nat -> lit_ci K (a ++ r) = lit_ci K a.
Proof.
  induction K as [|k K IH]; intros a r H; simpl.
  - reflexivity.
  - destruct a as [|c a]; simpl in H; [lia|].
    simpl. rewrite IH by lia. reflexivity.
Qed.

End Emphasis.

Section EmphasisScan.
Context {db : CharDB}.

(** An answer of the pattern of a keyword is a whole-word occurrence at
    the position. *)
Lemma pat_word_occurrence : forall K pre s n,
    pat_word K (last_char pre) s = Some n ->
    n = length K
    /\ s = firstn n s ++ skipn n s
    /\ length (firstn n s) = n
    /\ whole_word_occurrence K pre (firstn n s) (skipn n s).
Proof.
  intros K pre s n H. apply pat_word_inv in H.
  destruct H as (-> & Hlit & Hb1 & Hb2).
  pose proof (lit_ci_length _ _ Hlit) as Hlen.
  apply lit_ci_ci_equal in Hlit. destruct Hlit as [Hci Hs].
  split; [reflexivity|]. split; [exact Hs|].
  split; [apply firstn_length_le; exact Hlen|].
  repeat split.
  - exact Hci.
  - unfold word_boundary. rewrite <- Hs. exact Hb1.
  - unfold word_boundary, last_char. rewrite last_before_app. exact Hb2.
Qed.

Lemma last_char_snoc : forall pre c, last_char (pre ++ [c]) = Some c.
Proof.
  intros pre c. unfold last_char. rewrite last_before_app. reflexivity.
Qed.

(** One substitution of a keyword is one pass in the sense of
    [scan_wraps]. *)
Lemma sub_word_scan : forall K n s pre,
    K <> [] -> (length s <= n)%nat ->
    scan_wraps K pre s
               (sub_loop (pat_word K) replacer (last_char pre) O s).
Proof.
  intros K n. induction n as [|n IH]; intros s pre HK Hlen.
  - destruct s; [constructor | simpl in Hlen; lia].
  - destruct s as [|c s]; [constructor|].
    destruct (pat_word K (last_char pre) (c :: s)) as [k|] eqn:E.
    + destruct (@pat_word_occurrence K pre _ _ E) as (-> & Hs & Hk & Hocc).
      remember (firstn (length K) (c :: s)) as m eqn:Em.
      remember (skipn (length K) (c :: s)) as post eqn:Ep.
      assert (Hm : m <> []).
      { intros ->. simpl in Hk. destruct K; [congruence | discriminate]. }
      rewrite Hs in E |- *.
      rewrite sub_loop_at_match; [|exact Hm|rewrite Hk; exact E].
      constructor; [exact Hocc|].
      unfold last_char at 1. rewrite <- last_before_app.
      apply IH; [exact HK|].
      apply (f_equal (@length _)) in Hs. rewrite length_app in Hs.
      simpl in Hs, Hlen. destruct m; [congruence|]. simpl in Hs. lia.
    + rewrite sub_loop_pos_len, E. cbn [pos_len].
      constructor.
      * intros m post Hs Hocc.
        pose proof (pat_word_at_occurrence HK Hocc) as E'.
        rewrite <- Hs in E'. congruence.
      * rewrite <- (last_char_snoc pre c).
        apply IH; [exact HK | simpl in Hlen; lia].
Qed.

Lemma emphasized_by_bold_keywords : forall kws p,
    emphasized kws p (bold_keywords p kws).
Proof.
  induction kws as [|kw kws IH]; intros p.
  - constructor.
  - destruct kw as [|k kw'].
    + cbn [bold_keywords is_empty]. constructor. apply IH.
    + cbn [bold_keywords is_empty].
      apply emph_pass with (p' := re_sub (pat_word (k :: kw')) replacer p).
      * discriminate.
      * apply (@sub_word_scan (k :: kw') (length p) p []);
          [discriminate | apply le_n].
      * apply IH.
Qed.

(** A pass has one result only, the one of the substitution. *)
Lemma scan_wraps_sub : forall K pre s q,
    K <> [] -> scan_wraps K pre s q ->
    q = sub_loop (pat_word K) replacer (last_char pre) O s.
Proof.
  intros K pre s q HK H. induction H as [pre|pre c s q Hno _ IH|pre m post q Hocc _ IH].
  - reflexivity.
  - rewrite sub_loop_pos_len.
    destruct (pat_word K (last_char pre) (c :: s)) as [k|] eqn:E.
    + destruct (@pat_word_occurrence K pre _ _ E) as (_ & Hs & _ & Hocc).
      exfalso. exact (Hno _ _ Hs Hocc).
    + cbn [pos_len]. rewrite IH, last_char_snoc. reflexivity.
  - assert (Hne : m <> []).
    { destruct Hocc as (Hci & _). intros ->. inversion Hci. congruence. }
    rewrite sub_loop_at_match; [|exact Hne|].
    + rewrite IH. unfold last_char. rewrite last_before_app. reflexivity.
    + destruct Hocc as (Hci & Hb). rewrite (ci_equal_length Hci).
      apply pat_word_at_occurrence; [exact HK|]. split; assumption.
Qed.

Lemma emphasized_bold_keywords : forall kws p q,
    emphasized kws p q -> q = bold_keywords p kws.
Proof.
  intros kws p q H. induction H as [p|kws p q _ IH|K kws p p' q HK Hs _ IH].
  - reflexivity.
  - exact IH.
  - destruct K as [|k K']; [congruence|].
    cbn [bold_keywords is_empty]. rewrite IH. f_equal.
    apply (scan_wraps_sub HK Hs).
Qed.

(** The scan reaches the end of a text whose matches all end inside it,
    having only put markers into it. *)
Lemma sub_loop_reaches : forall mt a rest prev skip,
    (skip <= length a)%nat ->
    (forall a1 a2 n,
        a = a1 ++ a2 -> a2 <> [] ->
        pos_len (mt (last_before prev a1) (a2 ++ rest)) = Some n ->
        (n <= length a2)%nat) ->
    exists out,
      sub_loop mt replacer prev skip (a ++ rest)
      = out ++ sub_loop mt replacer (last_before prev a) O rest
      /\ marked (skipn skip a) out.
Proof.
  intros mt a rest. induction a as [|c a IH]; intros prev skip Hskip Hend.
  - simpl in Hskip. assert (skip = O) by lia. subst skip.
    exists []. split; [reflexivity | constructor].
  - assert (Hend' : forall a1 a2 n,
               a = a1 ++ a2 -> a2 <> [] ->
               pos_len (mt (last_before (Some c) a1) (a2 ++ rest)) = Some n ->
               (n <= length a2)%nat).
    { intros a1 a2 n Ha Hne. rewrite <- (last_before_cons prev).
      apply Hend; [simpl; congruence | exact Hne]. }
    rewrite last_before_cons. destruct skip as [|k].
    + cbn [app]. rewrite sub_loop_pos_len.
      destruct (pos_len (mt prev (c :: a ++ rest))) as [n|] eqn:E.
      * pose proof (Hend [] (c :: a) n eq_refl ltac:(discriminate) E) as Hn.
        pose proof (pos_len_positive _ E) as Hpos.
        destruct n as [|n]; [congruence|]. cbn [Nat.pred length] in *.
        destruct (IH (Some c) n ltac:(lia) Hend') as (out & Eo & Hm).
        exists (replacer (firstn (S n) (c :: a)) ++ out). split.
        -- rewrite Eo. rewrite <- app_assoc. f_equal. f_equal.
           change (c :: a ++ rest) with ((c :: a) ++ rest).
           rewrite firstn_app.
           replace (S n - length (c :: a))%nat with O by (simpl; lia).
           rewrite firstn_O, app_nil_r. reflexivity.
        -- cbn [skipn].
           rewrite <- (firstn_skipn (S n) (c :: a)) at 1.
           apply marked_app; [apply marked_replacer | exact Hm].
      * destruct (IH (Some c) O ltac:(lia) Hend') as (out & Eo & Hm).
        exists (c :: out). split.
        -- rewrite Eo. reflexivity.
        -- cbn [skipn] in *. constructor. exact Hm.
    + cbn [app sub_loop skipn]. apply IH; [simpl in Hskip; lia | exact Hend'].
Qed.

(** A whole-word occurrence that no whole-word occurrence beginning
    before it reaches into is wrapped. *)
Lemma bold_keywords_wraps_free : forall K pre m post,
    K <> [] ->
    whole_word_occurrence K pre m post ->
    (forall a1 m' post',
        pre ++ m ++ post = a1 ++ m' ++ post' ->
        whole_word_occurrence K a1 m' post' ->
        (length a1 < length pre)%nat ->
        (length a1 + length m' <= length pre)%nat) ->
    exists pre' post',
      bold_keywords (pre ++ m ++ post) [K] = pre' ++ replacer m ++ post'
      /\ marked pre pre' /\ marked post post'.
Proof.
  intros K pre m post HK Hocc Hfree.
  rewrite bold_keywords_single by exact HK. unfold re_sub.
  destruct (@sub_loop_reaches (pat_word K) pre (m ++ post) None O
                              ltac:(lia)) as (out & Eo & Hm).
  - intros a1 a2 n Ha Hne E.
    assert (E' : pat_word K (last_char a1) (a2 ++ m ++ post) = Some n).
    { unfold last_char.
      destruct (pat_word K (last_before None a1) (a2 ++ m ++ post))
        as [[|k]|]; simpl in E; congruence. }
    destruct (@pat_word_occurrence K a1 _ _ E') as (_ & Hs & Hk & Hocc').
    assert (Hlen : (length a1 + length (firstn n (a2 ++ m ++ post))
                    <= length pre)%nat).
    { eapply Hfree; [|exact Hocc'|].
      - rewrite Ha, <- app_assoc. f_equal. exact Hs.
      - rewrite Ha, length_app. destruct a2; [congruence | simpl; lia]. }
    rewrite Hk, Ha, length_app in Hlen. lia.
  - assert (Hne : m <> []).
    { destruct Hocc as (Hci & _). intros ->. inversion Hci. congruence. }
    exists out, (sub_loop (pat_word K) replacer
                          (last_before (last_before None pre) m) O post).
    split; [|split].
    + rewrite Eo. f_equal. apply sub_loop_at_match; [exact Hne|].
      destruct Hocc as (Hci & Hb).
      rewrite (ci_equal_length Hci).
      apply pat_word_at_occurrence; [exact HK|]. split; assumption.
    + exact Hm.
    + apply (sub_loop_marked (pat_word K) post _ O).
Qed.

End EmphasisScan.

(** C6, as amended: [bold_keywords] only inserts emphasis markers, the
    characters of the paragraph stay as they are and in order; the
    non-empty keywords are applied one after the other in the order given,
    each in one pass from left to right over the text the one before it
    left, in which every whole-word occurrence of the keyword, up to case,
    that the pass comes to is wrapped, the pass goes on behind it, and
    nothing else is wrapped, which fixes the output; for a single non-empty
    keyword, a whole-word occurrence into which no whole-word occurrence
    beginning before it reaches is wrapped; and for "Climate change affects
    agriculture." with the keyword "climate" the output is "*Climate*
    change affects agriculture.". *)
Theorem bold_keywords_emphasis :
  forall (db : CharDB) (P : str) (kws : list str),
    marked P (bold_keywords P kws)
    /\ emphasized kws P (bold_keywords P kws)
    /\ (forall q, emphasized kws P q -> q = bold_keywords P kws)
    /\ (forall ks1 ks2,
           kws = ks1 ++ ks2 ->
           bold_keywords P kws = bold_keywords (bold_keywords P ks1) ks2)
    /\ (forall K pre m post,
           kws = [K] -> K <> [] ->
           P = pre ++ m ++ post ->
           whole_word_occurrence K pre m post ->
           (forall a1 m' post',
               P = a1 ++ m' ++ post' ->
               whole_word_occurrence K a1 m' post' ->
               (length a1 < length pre)%nat ->
               (length a1 + length m' <= length pre)%nat) ->
           exists pre' post',
             bold_keywords P kws = pre' ++ replacer m ++ post'
             /\ marked pre pre' /\ marked post post')
    /\ bold_keywords (db := ascii_db)
         (lit "Climate change affects agriculture.") [lit "climate"]
       = lit "*Climate* change affects agriculture.".
Proof.
  intros db P kws. split; [|split; [|split; [|split; [|split]]]].
  - apply bold_keywords_marked.
  - apply emphasized_by_bold_keywords.
  - intros q. apply emphasized_bold_keywords.
  - intros ks1 ks2 ->. apply bold_keywords_app.
  - intros K pre m post -> HK -> Hocc Hfree.
    apply bold_keywords_wraps_free; assumption.
  - vm_compute. reflexivity.
Qed.

(** C6, as stated, fails: in "a-a-a" the keyword "a-a" occurs as a whole
    word at the third character too, and that occurrence is not wrapped. *)
Lemma bold_keywords_overlapping_occurrence :
  whole_word_occurrence (lit "a-a") (lit "a-") (lit "a-a") []
  /\ bold_keywords (lit "a-a-a") [lit "a-a"] = lit "*a-a*-a"
  /\ ~ (exists pre' post',
           bold_keywords (lit "a-a-a") [lit "a-a"]
           = pre' ++ replacer (lit "a-a") ++ post'
           /\ marked (lit "a-") pre').
Proof.
  assert (Ev : bold_keywords (lit "a-a-a") [lit "a-a"] = lit "*a-a*-a")
    by (vm_compute; reflexivity).
  split; [|split].
  - repeat split; repeat constructor.
  - exact Ev.
  - intros (pre' & post' & E & Hp). rewrite Ev in E.
    destruct pre' as [|x [|y [|z pre']]].
    + inversion Hp.
    + vm_compute in E. discriminate E.
    + vm_compute in E. discriminate E.
    + apply (f_equal (@length _)) in E.
      rewrite !length_app in E. simpl in E. lia.
Qed.

Lemma bold_keywords_emphasis_witness :
  whole_word_occurrence (lit "cat") (lit "The ") (lit "Cat") (lit " sat.")
  /\ exists pre' post',
    bold_keywords (lit "The Cat sat.") [lit "cat"]
    = pre' ++ replacer (lit "Cat") ++ post'
    /\ marked (lit "The ") pre' /\ marked (lit " sat.") post'.
Proof.
  assert (Hocc : whole_word_occurrence (lit "cat") (lit "The ") (lit "Cat")
                                       (lit " sat."))
    by (repeat split; repeat constructor).
  split; [exact Hocc|].
  refine (proj1 (proj2 (proj2 (proj2 (proj2 (@bold_keywords_emphasis ascii_db
                                        (lit "The Cat sat.") [lit "cat"])))))
                (lit "cat") (lit "The ") (lit "Cat") (lit " sat.")
                eq_refl _ eq_refl Hocc _).
  - discriminate.
  - intros a1 m' post' E (Hci & _) Hlt.
    pose proof (ci_equal_length Hci) as Hl.
    destruct m' as [|x [|y [|z [|u m']]]]; try discriminate Hl.
    inversion Hci as [|? ? ? ? Hx _]; subst.
    destruct a1 as [|a [|b [|c [|d a1]]]];
      try (simpl in Hlt; lia);
      vm_compute in E; injection E as <-; intros; subst;
      vm_compute in Hx; discriminate Hx.
Defined.

Section Runs.
Variable f : char -> bool.

Lemma run_length_le : forall s, (run_length f s <= length s)%nat.
Proof.
  induction s as [|c s IH]; simpl; [lia|].
  destruct (f c); simpl; lia.
Qed.

Lemma last_char_cons : forall c (a : str),
    a <> [] -> last_before None (c :: a) = last_before None a.
Proof.
  intros c a H. rewrite last_before_cons.
  apply last_before_nonempty. exact H.
Qed.

(** A run that starts inside [a] ends inside [a] when [a] ends with a
    character outside the class. *)
Lemma run_length_app_stop : forall a r,
    a <> [] -> opt_is f (last_before None a) = false ->
    run_length f (a ++ r) = run_length f a.
Proof.
  induction a as [|c a IH]; intros r Hne Hlast; [congruence|].
  simpl. destruct a as [|y a].
  - simpl in Hlast. rewrite Hlast. reflexivity.
  - rewrite last_char_cons in Hlast by discriminate.
    rewrite (IH r) by (discriminate || exact Hlast). reflexivity.
Qed.

Lemma run_length_all : forall m b,
    forallb f m = true -> opt_is f (hd_error b) = false ->
    run_length f (m ++ b) = length m.
Proof.
  induction m as [|c m IH]; intros b Hm Hb; simpl.
  - destruct b as [|x b]; [reflexivity|]. simpl in *. rewrite Hb.
    reflexivity.
  - simpl in Hm. apply andb_true_iff in Hm. destruct Hm as [Hc Hm].
    rewrite Hc. f_equal. apply IH; assumption.
Qed.

Lemma run_length_none : forall b,
    opt_is f (hd_error b) = false -> run_length f b = O.
Proof.
  intros b H. apply (run_length_all [] b eq_refl H).
Qed.

End Runs.

Section PdfText.
Context {db : CharDB}.

Lemma pat_hyphen_newline_local : forall p a b,
    a <> [] ->
    local_at pat_hyphen_newline p a ([ch_hyphen; ch_newline] ++ b).
Proof.
  intros p a b Hne. unfold local_at, pat_hyphen_newline.
  destruct a as [|x [|y a]]; [congruence| |].
  - simpl. rewrite andb_false_r. split; [reflexivity | discriminate].
  - simpl. split; [reflexivity|].
    intros n H. destruct ((x =? ch_hyphen) && ((y =? ch_newline) && true));
      simpl in H; [|discriminate].
    injection H as <-. lia.
Qed.

(** A hyphen directly before a line break is removed together with the
    line break, and the two sides are treated on their own. *)
Lemma sub_hyphen_newline_app : forall a b,
    re_sub pat_hyphen_newline (fun _ => []) (a ++ [ch_hyphen; ch_newline] ++ b)
    = re_sub pat_hyphen_newline (fun _ => []) a
        ++ re_sub pat_hyphen_newline (fun _ => []) b.
Proof.
  intros a b. unfold re_sub. rewrite sub_loop_app.
  - f_equal.
    rewrite sub_loop_at_match with (m := [ch_hyphen; ch_newline]) (rest := b);
      [|discriminate|reflexivity].
    apply sub_loop_prev. reflexivity.
  - simpl. lia.
  - intros a1 a2 _ Hne. apply pat_hyphen_newline_local. exact Hne.
Qed.

Lemma pat_newlines_local : forall p a rest,
    a <> [] -> opt_is (N.eqb ch_newline) (last_char a) = false ->
    local_at pat_newlines p a rest.
Proof.
  intros p a rest Hne Hlast. unfold local_at, pat_newlines.
  rewrite run_length_app_stop by assumption. split; [reflexivity|].
  intros n H. pose proof (run_length_le (N.eqb ch_newline) a) as Hle.
  destruct (run_length (N.eqb ch_newline) a); simpl in H; [discriminate|].
  injection H as <-. exact Hle.
Qed.

Lemma pat_spaces2_local : forall p a rest,
    a <> [] -> opt_is is_space (last_char a) = false ->
    local_at pat_spaces2 p a rest.
Proof.
  intros p a rest Hne Hlast. unfold local_at, pat_spaces2.
  rewrite run_length_app_stop by assumption. split; [reflexivity|].
  intros n H. pose proof (run_length_le is_space a) as Hle.
  destruct (2 <=? run_length is_space a)%nat; simpl in H; [|discriminate].
  destruct (run_length is_space a); simpl in H; [discriminate|].
  injection H as <-. exact Hle.
Qed.

Lemma pat_sentence_gap_local : forall p a rest,
    a <> [] -> opt_is is_space (last_char a) = false ->
    local_at pat_sentence_gap p a rest.
Proof.
  intros p a rest Hne Hlast. unfold local_at, pat_sentence_gap.
  rewrite run_length_app_stop by assumption. split; [reflexivity|].
  intros n H. pose proof (run_length_le is_space a) as Hle.
  destruct p as [q|]; [|discriminate].
  destruct (is_sentence_end q); [|discriminate].
  destruct (run_length is_space a); simpl in H; [discriminate|].
  injection H as <-. exact Hle.
Qed.

Lemma suffix_last_char : forall (a a1 a2 : str) (g : char -> bool),
    a = a1 ++ a2 -> a2 <> [] ->
    opt_is g (last_char a) = false -> opt_is g (last_char a2) = false.
Proof.
  intros a a1 a2 g Ha Hne H. rewrite Ha in H. unfold last_char in *.
  rewrite last_before_app in H.
  rewrite (last_before_nonempty None (last_before None a1) Hne). exact H.
Qed.

(** A run of line breaks becomes one space. *)
Lemma sub_newlines_app : forall a nl b,
    nl <> [] -> forallb (N.eqb ch_newline) nl = true ->
    opt_is (N.eqb ch_newline) (last_char a) = false ->
    opt_is (N.eqb ch_newline) (hd_error b) = false ->
    re_sub pat_newlines (fun _ => [ch_space]) (a ++ nl ++ b)
    = re_sub pat_newlines (fun _ => [ch_space]) a ++ [ch_space]
        ++ re_sub pat_newlines (fun _ => [ch_space]) b.
Proof.
  intros a nl b Hne Hnl Ha Hb. unfold re_sub. rewrite sub_loop_app.
  - f_equal. rewrite sub_loop_at_match; [|exact Hne|].
    + f_equal. apply sub_loop_prev. reflexivity.
    + unfold pat_newlines. rewrite run_length_all by assumption.
      destruct nl; [congruence | reflexivity].
  - simpl. lia.
  - intros a1 a2 Hs Hne2. apply pat_newlines_local; [exact Hne2|].
    eapply suffix_last_char; eauto.
Qed.

(** A run of two or more whitespace characters becomes one space. *)
Lemma sub_spaces2_app : forall a ws b,
    (2 <= length ws)%nat -> forallb is_space ws = true ->
    opt_is is_space (last_char a) = false ->
    opt_is is_space (hd_error b) = false ->
    re_sub pat_spaces2 (fun _ => [ch_space]) (a ++ ws ++ b)
    = re_sub pat_spaces2 (fun _ => [ch_space]) a ++ [ch_space]
        ++ re_sub pat_spaces2 (fun _ => [ch_space]) b.
Proof.
  intros a ws b Hlen Hws Ha Hb. unfold re_sub. rewrite sub_loop_app.
  - f_equal. rewrite sub_loop_at_match.
    + f_equal. apply sub_loop_prev. reflexivity.
    + destruct ws; [simpl in Hlen; lia | discriminate].
    + unfold pat_spaces2. rewrite run_length_all by assumption.
      apply Nat.leb_le in Hlen. rewrite Hlen. reflexivity.
  - simpl. lia.
  - intros a1 a2 Hs Hne2. apply pat_spaces2_local; [exact Hne2|].
    eapply suffix_last_char; eauto.
Qed.

(** A single whitespace character between two others stays as it is. *)
Lemma sub_spaces2_single : forall a c b,
    is_space c = true ->
    opt_is is_space (last_char a) = false ->
    opt_is is_space (hd_error b) = false ->
    re_sub pat_spaces2 (fun _ => [ch_space]) (a ++ [c] ++ b)
    = re_sub pat_spaces2 (fun _ => [ch_space]) a ++ [c]
        ++ re_sub pat_spaces2 (fun _ => [ch_space]) b.
Proof.
  intros a c b Hc Ha Hb. unfold re_sub. rewrite sub_loop_app.
  - f_equal. cbn [app]. rewrite sub_loop_pos_len.
    unfold pat_spaces2 at 1. cbn [run_length]. rewrite Hc.
    rewrite (run_length_none is_space b Hb). cbn [Nat.leb pos_len].
    f_equal. apply sub_loop_prev. reflexivity.
  - simpl. lia.
  - intros a1 a2 Hs Hne2. apply pat_spaces2_local; [exact Hne2|].
    eapply suffix_last_char; eauto.
Qed.

(** The text is split at whitespace that follows a sentence end. *)
Lemma split_sentence_gap_app : forall a p ws b,
    is_sentence_end p = true -> is_space p = false ->
    ws <> [] -> forallb is_space ws = true ->
    opt_is is_space (hd_error b) = false ->
    re_split pat_sentence_gap (a ++ [p] ++ ws ++ b)
    = re_split pat_sentence_gap (a ++ [p]) ++ re_split pat_sentence_gap b.
Proof.
  intros a p ws b Hp Hps Hne Hws Hb. unfold re_split.
  rewrite (app_assoc a [p]).
  rewrite split_loop_app_match.
  - f_equal. apply split_loop_prev. unfold pat_sentence_gap.
    rewrite (run_length_none is_space b Hb).
    destruct (last_before None ((a ++ [p]) ++ ws)) as [q|]; [|reflexivity].
    destruct (is_sentence_end q); reflexivity.
  - simpl. lia.
  - intros a1 a2 Hs Hne2. apply pat_sentence_gap_local; [exact Hne2|].
    eapply suffix_last_char; [exact Hs | exact Hne2 |].
    unfold last_char. rewrite last_before_app. simpl. exact Hps.
  - exact Hne.
  - rewrite last_before_app. cbn [last_before rev app].
    unfold pat_sentence_gap. rewrite Hp.
    rewrite run_length_all by assumption.
    destruct ws; [congruence | reflexivity].
Qed.

End PdfText.

Section PdfPasses.
Context {db : CharDB}.

(** The four passes of [page_paragraphs] and the split of the fallback of
    [extract_text_from_url] do what the character-wise passes say. *)
Lemma sub_hyphen_newline_dehyphenate : forall n s prev,
    (length s <= n)%nat ->
    sub_loop pat_hyphen_newline (fun _ => []) prev O s = dehyphenate s.
Proof.
  induction n as [|n IH]; intros s prev Hlen.
  - destruct s; [reflexivity | simpl in Hlen; lia].
  - destruct s as [|c [|d s]]; [reflexivity | |].
    + rewrite sub_loop_pos_len. unfold pat_hyphen_newline.
      cbn [starts_with]. rewrite andb_false_r. reflexivity.
    + rewrite sub_loop_pos_len. unfold pat_hyphen_newline at 1.
      cbn [starts_with dehyphenate]. rewrite andb_true_r.
      destruct ((c =? ch_hyphen) && (d =? ch_newline)).
      * cbn [pos_len Nat.pred app sub_loop]. apply IH. simpl in Hlen. lia.
      * cbn [pos_len]. apply (f_equal (cons c)). apply (IH (d :: s)).
        simpl in Hlen |- *. lia.
Qed.

Lemma sub_newlines_passes : forall s prev,
    sub_loop pat_newlines (fun _ => [ch_space]) prev O s
    = newlines_to_space false s
    /\ sub_loop pat_newlines (fun _ => [ch_space]) prev
                (run_length (N.eqb ch_newline) s) s
       = newlines_to_space true s.
Proof.
  induction s as [|c s IH]; intros prev; [split; reflexivity|].
  destruct (IH (Some c)) as [IHa IHb].
  assert (Ha : sub_loop pat_newlines (fun _ => [ch_space]) prev O (c :: s)
               = newlines_to_space false (c :: s)).
  { rewrite sub_loop_pos_len. unfold pat_newlines at 1.
    cbn [run_length newlines_to_space]. rewrite (N.eqb_sym ch_newline c).
    destruct (c =? ch_newline).
    - cbn [pos_len Nat.pred]. rewrite IHb. reflexivity.
    - cbn [pos_len]. rewrite IHa. reflexivity. }
  split; [exact Ha|].
  cbn [run_length]. destruct (ch_newline =? c) eqn:E.
  - cbn [sub_loop newlines_to_space]. rewrite N.eqb_sym, E. exact IHb.
  - rewrite Ha. cbn [newlines_to_space]. rewrite N.eqb_sym, E. reflexivity.
Qed.

Lemma run_length_head : forall f (s : str),
    (1 <=? run_length f s)%nat = opt_is f (hd_error s).
Proof.
  intros f [|d s]; [reflexivity|]. simpl. destruct (f d); reflexivity.
Qed.

Lemma sub_spaces2_passes : forall s prev,
    sub_loop pat_spaces2 (fun _ => [ch_space]) prev O s
    = collapse_spaces false s
    /\ sub_loop pat_spaces2 (fun _ => [ch_space]) prev
                (run_length is_space s) s
       = collapse_spaces true s.
Proof.
  induction s as [|c s IH]; intros prev; [split; reflexivity|].
  destruct (IH (Some c)) as [IHa IHb].
  assert (Ha : sub_loop pat_spaces2 (fun _ => [ch_space]) prev O (c :: s)
               = collapse_spaces false (c :: s)).
  { rewrite sub_loop_pos_len. unfold pat_spaces2 at 1.
    cbn [run_length collapse_spaces].
    destruct (is_space c).
    - change (2 <=? S (run_length is_space s))%nat
        with (1 <=? run_length is_space s)%nat.
      rewrite run_length_head.
      destruct (opt_is is_space (hd_error s)).
      + cbn [pos_len Nat.pred]. rewrite IHb. reflexivity.
      + cbn [pos_len]. rewrite IHa. reflexivity.
    - cbn [Nat.leb pos_len]. rewrite IHa. reflexivity. }
  split; [exact Ha|].
  cbn [run_length]. destruct (is_space c) eqn:E.
  - cbn [sub_loop collapse_spaces]. rewrite E. exact IHb.
  - rewrite Ha. cbn [collapse_spaces]. rewrite E. reflexivity.
Qed.

Lemma split_sentence_gap_passes : forall s prev,
    split_loop pat_sentence_gap prev O s = sentence_pieces prev false s
    /\ forall prev',
      split_loop pat_sentence_gap prev (run_length is_space s) s
      = sentence_pieces prev' true s.
Proof.
  induction s as [|c s IH]; intros prev; [split; reflexivity|].
  destruct (IH (Some c)) as [IHa IHb].
  assert (Ha : forall q,
             is_space c = false \/ q = prev ->
             split_loop pat_sentence_gap prev O (c :: s)
             = (if is_space c && opt_is is_sentence_end q
                then [] :: sentence_pieces (Some c) true s
                else cons_head c (sentence_pieces (Some c) false s))).
  { intros q Hq. rewrite split_loop_pos_len. unfold pat_sentence_gap at 1.
    cbn [run_length].
    destruct (is_space c) eqn:E.
    - destruct Hq as [Hq| ->]; [discriminate|].
      destruct prev as [p|]; cbn [opt_is andb].
      + destruct (is_sentence_end p).
        * cbn [pos_len Nat.pred]. rewrite (IHb (Some c)). reflexivity.
        * cbn [pos_len]. rewrite IHa. reflexivity.
      + cbn [pos_len]. rewrite IHa. reflexivity.
    - cbn [andb].
      assert (Hn : pos_len match prev with
                           | Some p => if is_sentence_end p then None else None
                           | None => None
                           end = None)
        by (destruct prev as [p|]; [destruct (is_sentence_end p)|];
            reflexivity).
      rewrite Hn, IHa. reflexivity. }
  split.
  - rewrite (Ha prev (or_intror eq_refl)). cbn [sentence_pieces orb].
    reflexivity.
  - intros prev'. cbn [run_length sentence_pieces].
    destruct (is_space c) eqn:E.
    + cbn [split_loop andb orb]. apply IHb.
    + rewrite (Ha prev' (or_introl eq_refl)). reflexivity.
Qed.


Lemma page_paragraphs_passes : forall text,
    page_paragraphs (Some text)
    = stripped_nonempty
        (sentence_pieces None false
           (collapse_spaces false
              (newlines_to_space false (dehyphenate text)))).
Proof.
  intros text. unfold page_paragraphs, re_sub, re_split.
  rewrite (@sub_hyphen_newline_dehyphenate (length text) text None (le_n _)).
  rewrite (proj1 (sub_newlines_passes _ None)).
  rewrite (proj1 (sub_spaces2_passes _ None)).
  rewrite (proj1 (split_sentence_gap_passes _ None)).
  reflexivity.
Qed.

Lemma split_loop_no_match : forall mt s prev,
    search_from mt prev s = false -> split_loop mt prev O s = [s].
Proof.
  induction s as [|c s IH]; intros prev H.
  - reflexivity.
  - simpl in H. simpl. destruct (mt prev (c :: s)); [discriminate|].
    rewrite IH by exact H. reflexivity.
Qed.

End PdfPasses.

Lemma stripped_nonempty_app : forall (db : CharDB) (l1 l2 : list str),
    stripped_nonempty (l1 ++ l2)
    = stripped_nonempty l1 ++ stripped_nonempty l2.
Proof.
  intros db l1 l2. unfold stripped_nonempty.
  rewrite map_app, filter_app. reflexivity.
Qed.

(** C9, as amended: the paragraphs of a PDF are those of its pages in page
    order, a page without text giving none; a page's text goes through the
    removal of every hyphen directly before a line break (with the line
    break), the replacement of every run of line breaks by one space, the
    replacement of every run of two or more whitespace characters by one
    space (a single whitespace character that is not a line break stays as
    it is), and the split at whitespace that follows '.', '!' or '?', and
    each of the four steps leaves every other character as it is; the units
    are stripped, the empty ones dropped, and their order is kept. *)
Theorem extract_text_from_pdf_bytes_units :
  forall (db : CharDB) (w : World),
    (forall pdf_bytes pages,
        pdf_pages pdf_bytes = inr pages ->
        extract_text_from_pdf_bytes pdf_bytes
        = inr (flat_map page_paragraphs pages))
    /\ (forall pages1 pages2,
           flat_map page_paragraphs (pages1 ++ pages2)
           = flat_map page_paragraphs pages1
               ++ flat_map page_paragraphs pages2)
    /\ page_paragraphs None = []
    /\ (forall text,
           page_paragraphs (Some text)
           = stripped_nonempty
               (sentence_pieces None false
                  (collapse_spaces false
                     (newlines_to_space false (dehyphenate text)))))
    /\ (forall text,
           re_search pat_hyphen_newline text = false ->
           re_search pat_newlines text = false ->
           re_search pat_spaces2 text = false ->
           re_search pat_sentence_gap text = false ->
           page_paragraphs (Some text) = stripped_nonempty [text])
    /\ (forall a b,
           re_sub pat_hyphen_newline (fun _ => [])
                  (a ++ [ch_hyphen; ch_newline] ++ b)
           = re_sub pat_hyphen_newline (fun _ => []) a
               ++ re_sub pat_hyphen_newline (fun _ => []) b)
    /\ (forall a nl b,
           nl <> [] -> forallb (N.eqb ch_newline) nl = true ->
           opt_is (N.eqb ch_newline) (last_char a) = false ->
           opt_is (N.eqb ch_newline) (hd_error b) = false ->
           re_sub pat_newlines (fun _ => [ch_space]) (a ++ nl ++ b)
           = re_sub pat_newlines (fun _ => [ch_space]) a ++ [ch_space]
               ++ re_sub pat_newlines (fun _ => [ch_space]) b)
    /\ (forall a ws b,
           (2 <= length ws)%nat -> forallb is_space ws = true ->
           opt_is is_space (last_char a) = false ->
           opt_is is_space (hd_error b) = false ->
           re_sub pat_spaces2 (fun _ => [ch_space]) (a ++ ws ++ b)
           = re_sub pat_spaces2 (fun _ => [ch_space]) a ++ [ch_space]
               ++ re_sub pat_spaces2 (fun _ => [ch_space]) b)
    /\ (forall a c b,
           is_space c = true ->
           opt_is is_space (last_char a) = false ->
           opt_is is_space (hd_error b) = false ->
           re_sub pat_spaces2 (fun _ => [ch_space]) (a ++ [c] ++ b)
           = re_sub pat_spaces2 (fun _ => [ch_space]) a ++ [c]
               ++ re_sub pat_spaces2 (fun _ => [ch_space]) b)
    /\ (forall a p ws b,
           is_sentence_end p = true -> is_space p = false ->
           ws <> [] -> forallb is_space ws = true ->
           opt_is is_space (hd_error b) = false ->
           re_split pat_sentence_gap (a ++ [p] ++ ws ++ b)
           = re_split pat_sentence_gap (a ++ [p])
               ++ re_split pat_sentence_gap b)
    /\ (forall pieces1 pieces2,
           stripped_nonempty (pieces1 ++ pieces2)
           = stripped_nonempty pieces1 ++ stripped_nonempty pieces2)
    /\ (forall extracted u,
           In u (page_paragraphs extracted) -> u <> [] /\ strip u = u).
Proof.
  intros db w. repeat apply conj.
  - intros pdf_bytes pages H. unfold extract_text_from_pdf_bytes.
    rewrite H. reflexivity.
  - intros pages1 pages2. apply flat_map_app.
  - reflexivity.
  - apply page_paragraphs_passes.
  - intros text H1 H2 H3 H4. unfold page_paragraphs, re_sub, re_split.
    rewrite (@sub_loop_no_match _ (fun _ => []) text None H1).
    rewrite (@sub_loop_no_match _ (fun _ => [ch_space]) text None H2).
    rewrite (@sub_loop_no_match _ (fun _ => [ch_space]) text None H3).
    rewrite (@split_loop_no_match _ text None H4). reflexivity.
  - apply sub_hyphen_newline_app.
  - apply sub_newlines_app.
  - apply sub_spaces2_app.
  - apply sub_spaces2_single.
  - apply split_sentence_gap_app.
  - apply stripped_nonempty_app.
  - intros extracted u H. unfold page_paragraphs in H.
    eapply stripped_nonempty_spec. exact H.
Qed.

(** C9, as stated, fails: a tab between two words is whitespace and is
    not turned into a space. *)
Lemma page_paragraphs_keeps_tab :
  is_space (CharDB := ascii_db) 9 = true
  /\ page_paragraphs (Some (lit "a" ++ [9] ++ lit "b"))
     = [lit "a" ++ [9] ++ lit "b"].
Proof.
  split; vm_compute; reflexivity.
Qed.

Lemma extract_text_from_pdf_bytes_units_witness :
  re_sub pat_spaces2 (fun _ => [ch_space]) (lit "a" ++ lit "  " ++ lit "b")
  = re_sub pat_spaces2 (fun _ => [ch_space]) (lit "a") ++ [ch_space]
      ++ re_sub pat_spaces2 (fun _ => [ch_space]) (lit "b")
  /\ re_split pat_sentence_gap (lit "One" ++ lit "." ++ lit " " ++ lit "Two")
     = re_split pat_sentence_gap (lit "One" ++ lit ".")
         ++ re_split pat_sentence_gap (lit "Two")
  /\ page_paragraphs (Some (lit "well-known, at 3.5 percent"))
     = stripped_nonempty [lit "well-known, at 3.5 percent"]
  /\ page_paragraphs
       (Some (lit "Hyphen-" ++ [ch_newline] ++ lit "ated.  Two" ++ [ch_newline]
                ++ lit "lines!"))
     = [lit "Hyphenated."; lit "Two lines!"].
Proof.
  destruct (extract_text_from_pdf_bytes_units ascii_db demo_world)
    as (_ & _ & _ & _ & Hsame & _ & _ & Hsp & _ & Hsplit & _ & _).
  split; [|split; [|split]].
  - apply (Hsp (lit "a") (lit "  ") (lit "b")); vm_compute;
      (lia || reflexivity).
  - apply (Hsplit (lit "One") 46 (lit " ") (lit "Two")); vm_compute;
      (reflexivity || discriminate).
  - apply Hsame; vm_compute; reflexivity.
  - vm_compute. reflexivity.
Defined.

(** * Further properties of the keyword filter and the formatter *)

Section FilterMore.
Context {db : CharDB}.

Lemma re_search_word_iff : forall K P,
    K <> [] ->
    (re_search (pat_word K) P = true
     <-> exists pre m post,
        P = pre ++ m ++ post /\ whole_word_occurrence K pre m post).
Proof.
  intros K P HK. unfold re_search. split.
  - intros H. apply search_from_inv in H.
    destruct H as (pre & rest & n & HP & Hm).
    apply pat_word_inv in Hm. destruct Hm as (-> & Hlit & Hb1 & Hb2).
    apply lit_ci_ci_equal in Hlit. destruct Hlit as [Hci Hrest].
    exists pre, (firstn (length K) rest), (skipn (length K) rest).
    split; [congruence|]. repeat split.
    + exact Hci.
    + unfold word_boundary, last_char. rewrite <- Hrest. exact Hb1.
    + unfold word_boundary, last_char. rewrite last_before_app. exact Hb2.
  - intros (pre & m & post & -> & Hocc).
    eapply search_from_app. apply pat_word_at_occurrence; eassumption.
Qed.

(** [paragraph_matches] is true exactly when some non-empty keyword of the
    list occurs in the paragraph as a whole word, up to case. *)
Theorem paragraph_matches_iff : forall (P : str) (kws : list str),
    paragraph_matches P kws = true
    <-> exists K pre m post,
      In K kws /\ K <> [] /\ P = pre ++ m ++ post
      /\ whole_word_occurrence K pre m post.
Proof.
  intros P kws. induction kws as [|kw kws IH]; simpl.
  - split; [discriminate|]. intros (K & _ & _ & _ & [] & _).
  - destruct kw as [|k kw'].
    + simpl. rewrite IH. split.
      * intros (K & pre & m & post & Hin & H). exists K, pre, m, post.
        split; [right; exact Hin | exact H].
      * intros (K & pre & m & post & [<- | Hin] & HK & H);
          [congruence|]. exists K, pre, m, post. auto.
    + cbn [is_empty].
      destruct (re_search (pat_word (k :: kw')) P) eqn:E.
      * split; [|reflexivity]. intros _.
        apply re_search_word_iff in E; [|discriminate].
        destruct E as (pre & m & post & HP & Hocc).
        exists (k :: kw'), pre, m, post.
        repeat split; try assumption; try (left; reflexivity);
          try discriminate; apply Hocc.
      * rewrite IH. split.
        -- intros (K & pre & m & post & Hin & H). exists K, pre, m, post.
           split; [right; exact Hin | exact H].
        -- intros (K & pre & m & post & [<- | Hin] & HK & HP & Hocc).
           ++ assert (re_search (pat_word (k :: kw')) P = true) as Ht.
              { apply re_search_word_iff; [exact HK|]. eauto. }
              congruence.
           ++ exists K, pre, m, post. auto.
Qed.

(** Matching against two keyword lists put together is matching against
    either of them: neither the order of the keywords nor a repetition
    matters. *)
Theorem paragraph_matches_app : forall (P : str) (k1 k2 : list str),
    paragraph_matches P (k1 ++ k2)
    = paragraph_matches P k1 || paragraph_matches P k2.
Proof.
  intros P k1 k2. induction k1 as [|kw k1 IH]; simpl.
  - reflexivity.
  - destruct (is_empty kw); [exact IH|].
    destruct (re_search (pat_word kw) P); [reflexivity | exact IH].
Qed.

Lemma marked_length : forall p q, marked p q -> (length p <= length q)%nat.
Proof.
  intros p q H. induction H; simpl; lia.
Qed.

Lemma sub_word_grows : forall K s prev,
    K <> [] ->
    search_from (pat_word K) prev s = true ->
    (length s + 2
     <= length (sub_loop (pat_word K) replacer prev O s))%nat.
Proof.
  intros K s. induction s as [|c s IH]; intros prev HK H.
  - simpl in H. destruct (pat_word K prev []) as [n|] eqn:E; [|discriminate].
    apply pat_word_inv in E. destruct E as (_ & Hlit & _).
    destruct K; [congruence | discriminate].
  - simpl in H. cbn [sub_loop].
    destruct (pat_word K prev (c :: s)) as [n|] eqn:E.
    + apply pat_word_inv in E. destruct E as (-> & _).
      destruct K as [|k K']; [congruence|]. cbn [length].
      pose proof (sub_loop_marked (pat_word (k :: K')) s (Some c)
                                  (length K')) as Hm.
      apply marked_length in Hm.
      pose proof (firstn_skipn (length K') s) as Hs.
      apply (f_equal (@length _)) in Hs. rewrite length_app in Hs.
      unfold replacer in *. rewrite !length_app. cbn [firstn length]. lia.
    + cbn [length]. specialize (IH (Some c) HK H). lia.
Qed.

(** A paragraph that matches gets at least one pair of emphasis markers:
    with the previous theorem on paragraphs without a match,
    [bold_keywords] changes a paragraph exactly when it matches. *)
Theorem bold_keywords_grows_on_match : forall (P : str) (kws : list str),
    paragraph_matches P kws = true ->
    (length P + 2 <= length (bold_keywords P kws))%nat.
Proof.
  intros P kws. revert P. induction kws as [|kw kws IH]; intros P H;
    simpl in *.
  - discriminate.
  - destruct kw as [|k kw']; cbn [is_empty] in *; [apply IH; exact H|].
    destruct (re_search (pat_word (k :: kw')) P) eqn:E.
    + pose proof (bold_keywords_marked kws
                    (re_sub (pat_word (k :: kw')) replacer P)) as Hm.
      apply marked_length in Hm.
      pose proof (@sub_word_grows (k :: kw') P None ltac:(discriminate) E).
      unfold re_sub in *. lia.
    + unfold re_sub. unfold re_search in E.
      rewrite (sub_loop_no_match _ _ _ _ E). apply IH. exact H.
Qed.

End FilterMore.

Lemma bold_keywords_grows_on_match_witness :
  paragraph_matches (lit "My Cat sat.") [[]; lit "dog"; lit "cat"] = true
  /\ (length (lit "My Cat sat.") + 2
      <= length (bold_keywords (lit "My Cat sat.")
                               [[]; lit "dog"; lit "cat"]))%nat.
Proof.
  split.
  - vm_compute. reflexivity.
  - apply (@bold_keywords_grows_on_match ascii_db). vm_compute. reflexivity.
Defined.

Section SelectionMore.
Context {db : CharDB}.

Lemma keep_first_incl : forall l seen e,
    In e (keep_first seen l) -> In e l.
Proof.
  intros l seen e H. apply keep_first_is_first in H.
  destruct H as (b & a & -> & _). apply in_or_app. right. left. reflexivity.
Qed.

Lemma select_entry : forall (st : Shell) (source p : str),
    In (source, p) (select st) ->
    (exists cb, In (source, cb) (source_checkboxes st) /\ cb_value cb = true)
    /\ (exists ps, dict_get (source_paragraphs st) source = Some ps
                   /\ In p ps)
    /\ paragraph_matches p (keywords st) = true.
Proof.
  intros st source p H. rewrite select_keep_first in H.
  apply keep_first_incl in H. unfold candidates, source_candidates in H.
  apply in_flat_map in H. destruct H as (s & Hs & Hp).
  apply in_map_iff in Hp. destruct Hp as (p' & Heq & Hp').
  injection Heq as -> ->. apply filter_In in Hp'. destruct Hp' as [Hin Hm].
  split; [|split].
  - unfold selected_sources in Hs. apply in_map_iff in Hs.
    destruct Hs as ([s cb] & Hfst & Hf). simpl in Hfst. subst s.
    apply filter_In in Hf. destruct Hf as [Hin' Hv].
    exists cb. split; assumption.
  - destruct (dict_get (source_paragraphs st) source) as [ps|];
      [|contradiction].
    exists ps. split; [reflexivity | exact Hin].
  - exact Hm.
Qed.

(** An entry of the selection comes from a source whose checkbox is
    checked, its paragraph is one of the paragraphs loaded for that source,
    and the paragraph matches the keywords. *)
Theorem select_sound : forall (st : Shell) (source p : str),
    In (source, p) (select st) ->
    (exists cb, In (source, cb) (source_checkboxes st) /\ cb_value cb = true)
    /\ (exists ps, dict_get (source_paragraphs st) source = Some ps
                   /\ In p ps)
    /\ paragraph_matches p (keywords st) = true.
Proof.
  intros st source p H. apply select_entry. exact H.
Qed.

Lemma keep_first_all : forall l seen,
    NoDup (map prefix_key l) ->
    (forall e, In e l -> ~ In (prefix_key e) seen) ->
    keep_first seen l = l.
Proof.
  induction l as [|x l IH]; intros seen Hnd Hfresh; simpl.
  - reflexivity.
  - destruct (existsb (str_eqb (prefix_key x)) seen) eqn:E.
    + apply existsb_str_eqb_In in E. exfalso.
      apply (Hfresh x); [left; reflexivity | exact E].
    + f_equal. simpl in Hnd. inversion Hnd as [|? ? Hx Hnd']; subst.
      apply IH; [exact Hnd'|].
      intros e He [Hk | Hs].
      * apply Hx. rewrite Hk. apply in_map. exact He.
      * apply (Hfresh e); [right; exact He | exact Hs].
Qed.

(** Nothing is dropped without a reason: when the matching paragraphs of
    the included sources have pairwise different 200-character prefixes, the
    selection is all of them, in source order then paragraph order. *)
Theorem select_without_duplicates : forall st : Shell,
    NoDup (map prefix_key (candidates st)) ->
    select st = candidates st.
Proof.
  intros st H. rewrite select_keep_first.
  apply keep_first_all; [exact H | intros e _ []].
Qed.

Lemma result_line_nonempty : forall kws entry, result_line kws entry <> [].
Proof.
  intros kws [source p]. unfold result_line, header_open. discriminate.
Qed.

(** The displayed text is empty exactly when the selection is empty: each
    selected paragraph brings at least its source header. *)
Theorem update_output_empty_iff : forall st : Shell,
    output_area (update_output st) = [] <-> select st = [].
Proof.
  intros st. unfold update_output. simpl.
  unfold build_result_text_with_sources.
  destruct (select st) as [|e sel]; simpl.
  - split; reflexivity.
  - split; [|discriminate]. intros H. exfalso.
    pose proof (result_line_nonempty (keywords st) e) as Hne.
    destruct (map (result_line (keywords st)) sel);
      [contradiction|].
    destruct (result_line (keywords st) e); [congruence | discriminate].
Qed.

End SelectionMore.

Lemma select_without_duplicates_witness :
  NoDup (map prefix_key (candidates demo_ready))
  /\ select demo_ready
     = [(lit "URL: http://ok", lit "Climate change affects agriculture.")].
Proof.
  assert (H : NoDup (map prefix_key (candidates demo_ready))).
  { vm_compute. repeat constructor. intros []. }
  split; [exact H|].
  rewrite (@select_without_duplicates ascii_db demo_ready H).
  vm_compute. reflexivity.
Defined.

Lemma select_sound_witness :
  In (lit "URL: http://ok", lit "Climate change affects agriculture.")
     (select demo_ready)
  /\ paragraph_matches (lit "Climate change affects agriculture.")
                       (keywords demo_ready) = true.
Proof.
  assert (H : In (lit "URL: http://ok",
                  lit "Climate change affects agriculture.")
                 (select demo_ready)) by (vm_compute; tauto).
  split; [exact H|].
  exact (proj2 (proj2 (@select_sound ascii_db demo_ready _ _ H))).
Defined.

(** * Further properties of the keyword field *)

Section Sublists.
Variable f : char -> bool.
Variable P : char -> Prop.

Lemma Forall_drop_while : forall s, Forall P s -> Forall P (drop_while f s).
Proof.
  intros s H. destruct (drop_while_split f s) as (t & Hs & _).
  rewrite Hs in H. apply Forall_app in H. apply H.
Qed.

Lemma Forall_rstrip_by : forall s, Forall P s -> Forall P (rstrip_by f s).
Proof.
  intros s H. destruct (rstrip_by_split f s) as (t & Hs & _).
  rewrite Hs in H. apply Forall_app in H. apply H.
Qed.

Lemma Forall_not_last : forall a,
    Forall (fun c => f c = false) a ->
    opt_is f (last_before None a) = false.
Proof.
  intros a H. unfold last_before. destruct (rev a) as [|x r] eqn:E.
  - reflexivity.
  - simpl. rewrite Forall_forall in H. apply H. apply in_rev.
    rewrite E. left. reflexivity.
Qed.

Lemma rstrip_by_fixed : forall s,
    Forall (fun c => f c = false) s -> rstrip_by f s = s.
Proof.
  intros s H. unfold rstrip_by. rewrite drop_while_fixed.
  - apply rev_involutive.
  - destruct (rev s) as [|x r] eqn:E; [exact I|].
    rewrite Forall_forall in H. apply H. apply in_rev. rewrite E.
    left. reflexivity.
Qed.

End Sublists.

Section KeywordField.
Context {db : CharDB}.

Lemma Forall_strip : forall (P : char -> Prop) s,
    Forall P s -> Forall P (strip s).
Proof.
  intros P s H. unfold strip. apply Forall_rstrip_by.
  apply Forall_drop_while. exact H.
Qed.

Lemma strip_fixed : forall s,
    Forall (fun c => is_space c = false) s -> strip s = s.
Proof.
  intros s H. unfold strip. rewrite drop_while_fixed.
  - apply rstrip_by_fixed. exact H.
  - destruct s as [|c s]; [exact I|]. inversion H; assumption.
Qed.

Lemma Forall_cons_head : forall (P : char -> Prop) c pieces,
    P c -> Forall (Forall P) pieces -> Forall (Forall P) (cons_head c pieces).
Proof.
  intros P c [|p ps] Hc H; simpl.
  - repeat constructor. exact Hc.
  - inversion H; subst. constructor; [constructor|]; assumption.
Qed.

Lemma split_separators_pieces : forall s prev skip,
    Forall (Forall (fun c => is_separator c = false))
           (split_loop pat_separators prev skip s).
Proof.
  induction s as [|c s IH]; intros prev skip.
  - simpl. repeat constructor.
  - destruct skip as [|k]; [|simpl; apply IH].
    rewrite split_loop_pos_len. unfold pat_separators at 1.
    cbn [run_length]. fold (is_separator c).
    destruct (is_separator c) eqn:E; cbn [pos_len].
    + constructor; [constructor | apply IH].
    + apply Forall_cons_head; [exact E | apply IH].
Qed.

(** A keyword built from the keyword field is not empty and holds neither
    whitespace nor a comma. *)
Theorem parse_keywords_tokens : forall (raw k : str),
    In k (parse_keywords raw) ->
    k <> [] /\ Forall (fun c => is_space c = false /\ c <> ch_comma) k.
Proof.
  intros raw k H. unfold parse_keywords, stripped_nonempty in H.
  apply filter_In in H. destruct H as [Hin Hne].
  apply in_map_iff in Hin. destruct Hin as (p & <- & Hp).
  split.
  - intros E. rewrite E in Hne. discriminate.
  - apply Forall_strip.
    pose proof (split_separators_pieces raw None O) as Hall.
    rewrite Forall_forall in Hall. specialize (Hall p Hp).
    eapply Forall_impl; [|exact Hall].
    intros c Hc. unfold is_separator in Hc.
    apply orb_false_iff in Hc. destruct Hc as [Hs Hcomma].
    split; [exact Hs | apply N.eqb_neq; exact Hcomma].
Qed.

Lemma pat_separators_local : forall p a rest,
    a <> [] -> opt_is is_separator (last_char a) = false ->
    local_at pat_separators p a rest.
Proof.
  intros p a rest Hne Hlast. unfold local_at, pat_separators.
  fold is_separator.
  rewrite run_length_app_stop by assumption. split; [reflexivity|].
  intros n H. pose proof (run_length_le is_separator a) as Hle.
  destruct (run_length is_separator a); simpl in H; [discriminate|].
  injection H as <-. exact Hle.
Qed.

Lemma split_separators_token : forall k prev,
    Forall (fun c => is_separator c = false) k ->
    split_loop pat_separators prev O k = [k].
Proof.
  induction k as [|c k IH]; intros prev H.
  - reflexivity.
  - inversion H as [|? ? Hc Hk]; subst.
    rewrite split_loop_pos_len. unfold pat_separators at 1.
    cbn [run_length]. fold (is_separator c). rewrite Hc. cbn [pos_len].
    rewrite IH by exact Hk. reflexivity.
Qed.

Lemma Forall_suffix : forall (P : char -> Prop) (a a1 a2 : str),
    a = a1 ++ a2 -> Forall P a -> Forall P a2.
Proof.
  intros P a a1 a2 -> H. apply Forall_app in H. apply H.
Qed.

Lemma split_separators_join : forall seps ks,
    seps <> [] -> forallb is_separator seps = true ->
    Forall (fun k => k <> []
                     /\ Forall (fun c => is_separator c = false) k) ks ->
    ks <> [] ->
    re_split pat_separators (join seps ks) = ks.
Proof.
  intros seps ks Hne Hseps. induction ks as [|k ks IH]; intros Hks Hnil.
  - congruence.
  - inversion Hks as [|? ? [Hk Hkc] Hks']; subst.
    destruct ks as [|k' ks].
    + simpl. apply split_separators_token. exact Hkc.
    + change (join seps (k :: k' :: ks))
        with (k ++ seps ++ join seps (k' :: ks)).
      assert (Hhd : opt_is is_separator
                           (hd_error (join seps (k' :: ks))) = false).
      { inversion Hks' as [|? ? [Hk' Hkc'] _]; subst.
        destruct k' as [|c k'']; [congruence|].
        inversion Hkc'; subst.
        destruct ks; simpl; assumption. }
      unfold re_split. rewrite split_loop_app_match.
      * rewrite split_separators_token by exact Hkc.
        cbn [app]. f_equal.
        rewrite <- (IH Hks' ltac:(discriminate)) at 2.
        apply split_loop_prev. reflexivity.
      * simpl. lia.
      * intros a1 a2 Ha Hne2. apply pat_separators_local; [exact Hne2|].
        apply Forall_not_last. eapply Forall_suffix; eassumption.
      * exact Hne.
      * unfold pat_separators. fold is_separator.
        rewrite run_length_all by assumption.
        destruct seps; [congruence | reflexivity].
Qed.

(** Keywords written one after the other with separators between them
    (commas, whitespace, or both) are read back as they were. *)
Theorem parse_keywords_join : forall (seps : str) (ks : list str),
    seps <> [] -> forallb is_separator seps = true ->
    Forall (fun k => k <> []
                     /\ Forall (fun c => is_separator c = false) k) ks ->
    parse_keywords (join seps ks) = ks.
Proof.
  intros seps ks Hne Hseps Hks. unfold parse_keywords.
  destruct ks as [|k ks]; [reflexivity|].
  rewrite split_separators_join; try assumption; [|discriminate].
  unfold stripped_nonempty.
  induction Hks as [|x l [Hx Hxc] _ IH]; [reflexivity|].
  cbn [map]. rewrite strip_fixed.
  - cbn [filter]. destruct x; [congruence|]. cbn [is_empty negb].
    f_equal. exact IH.
  - eapply Forall_impl; [|exact Hxc]. intros c Hc.
    unfold is_separator in Hc. apply orb_false_iff in Hc. apply Hc.
Qed.

End KeywordField.

Lemma parse_keywords_tokens_witness :
  In (lit "change") (parse_keywords (lit " climate,  change ,"))
  /\ Forall (fun c => is_space c = false /\ c <> ch_comma) (lit "change").
Proof.
  assert (H : In (lit "change") (parse_keywords (lit " climate,  change ,")))
    by (vm_compute; tauto).
  split; [exact H|].
  exact (proj2 (@parse_keywords_tokens ascii_db _ _ H)).
Defined.

Lemma parse_keywords_join_witness :
  lit ", " <> []
  /\ parse_keywords (join (lit ", ") [lit "budget"; lit "forecast"])
     = [lit "budget"; lit "forecast"].
Proof.
  split; [discriminate|].
  apply (@parse_keywords_join ascii_db).
  - discriminate.
  - vm_compute. reflexivity.
  - repeat constructor; discriminate.
Defined.

(** * Further properties of the loaders and of the labels *)

Section LoopContents.
Variable mt : matcher.
Variable P : char -> Prop.

Lemma sub_loop_Forall : forall repl s prev skip,
    (forall m, Forall P (repl m)) ->
    Forall P s -> Forall P (sub_loop mt repl prev skip s).
Proof.
  intros repl s. induction s as [|c s IH]; intros prev skip Hr Hs.
  - constructor.
  - inversion Hs as [|? ? Hc Hs']; subst.
    destruct skip as [|k]; [|simpl; apply IH; assumption].
    rewrite sub_loop_pos_len.
    destruct (pos_len (mt prev (c :: s))).
    + apply Forall_app. split; [apply Hr | apply IH; assumption].
    + constructor; [exact Hc | apply IH; assumption].
Qed.

Lemma sub_loop_Forall_copied : forall repl s prev skip,
    (forall m, Forall P (repl m)) ->
    (forall p c t, pos_len (mt p (c :: t)) = None -> P c) ->
    Forall P (sub_loop mt repl prev skip s).
Proof.
  intros repl s. induction s as [|c s IH]; intros prev skip Hr Hc.
  - constructor.
  - destruct skip as [|k]; [|simpl; apply IH; assumption].
    rewrite sub_loop_pos_len.
    destruct (pos_len (mt prev (c :: s))) eqn:E.
    + apply Forall_app. split; [apply Hr | apply IH; assumption].
    + constructor; [eapply Hc; exact E | apply IH; assumption].
Qed.

Lemma split_loop_Forall : forall s prev skip,
    Forall P s -> Forall (Forall P) (split_loop mt prev skip s).
Proof.
  induction s as [|c s IH]; intros prev skip Hs.
  - repeat constructor.
  - inversion Hs as [|? ? Hc Hs']; subst.
    destruct skip as [|k]; [|simpl; apply IH; assumption].
    rewrite split_loop_pos_len.
    destruct (pos_len (mt prev (c :: s))).
    + constructor; [constructor | apply IH; assumption].
    + apply Forall_cons_head; [exact Hc | apply IH; assumption].
Qed.

End LoopContents.

Section LoadersMore.
Context {db : CharDB} {w : World}.

Lemma stripped_nonempty_Forall : forall (P : char -> Prop) pieces u,
    Forall (Forall P) pieces -> In u (stripped_nonempty pieces) ->
    Forall P u.
Proof.
  intros P pieces u H Hu. unfold stripped_nonempty in Hu.
  apply filter_In in Hu. destruct Hu as [Hin _].
  apply in_map_iff in Hin. destruct Hin as (p & <- & Hp).
  apply Forall_strip. rewrite Forall_forall in H. apply H. exact Hp.
Qed.

Lemma page_paragraphs_one_line : forall extracted u,
    In u (page_paragraphs extracted) ->
    Forall (fun c => c <> ch_newline) u.
Proof.
  intros extracted u H. unfold page_paragraphs in H.
  eapply stripped_nonempty_Forall; [|exact H].
  apply split_loop_Forall. apply sub_loop_Forall.
  - intros _. repeat constructor. discriminate.
  - apply sub_loop_Forall_copied.
    + intros _. repeat constructor. discriminate.
    + intros p c t E. unfold pat_newlines in E. cbn [run_length] in E.
      destruct (ch_newline =? c) eqn:Ec; [discriminate|].
      apply N.eqb_neq in Ec. congruence.
Qed.

(** Every paragraph the PDF loader returns is non-empty, has no whitespace
    at either end and holds no line break. *)
Theorem extract_text_from_pdf_bytes_paragraphs :
  forall (pdf_bytes : list N) (ps : list str) (u : str),
    extract_text_from_pdf_bytes pdf_bytes = inr ps -> In u ps ->
    u <> [] /\ strip u = u /\ ~ In ch_newline u.
Proof.
  intros pdf_bytes ps u H Hu. unfold extract_text_from_pdf_bytes in H.
  destruct (pdf_pages pdf_bytes) as [e|pages]; [discriminate|].
  injection H as <-. apply in_flat_map in Hu.
  destruct Hu as (page & _ & Hu).
  pose proof (page_paragraphs_one_line _ _ Hu) as Hline.
  unfold page_paragraphs in Hu. apply stripped_nonempty_spec in Hu.
  destruct Hu as [Hne Hs]. repeat split; try assumption.
  intros Hin. rewrite Forall_forall in Hline.
  apply (Hline _ Hin). reflexivity.
Qed.









(** A label cut for the checkbox column is never longer than the limit: a
    short text is kept, a longer one is cut to the limit less three
    characters and three dots are put after it. *)
Theorem shorten_text_bound : forall (text : str) (max_len : nat),
    (3 <= max_len)%nat ->
    (length (shorten_text text max_len) <= max_len)%nat
    /\ (length text <= max_len -> shorten_text text max_len = text)%nat
    /\ ((max_len < length text)%nat ->
        shorten_text text max_len
        = firstn (max_len - 3) text ++ lit "..."
        /\ length (shorten_text text max_len) = max_len).
Proof.
  intros text max_len H3. unfold shorten_text.
  destruct (Nat.leb_spec (length text) max_len) as [Hle | Hgt].
  - split; [lia|]. split; [reflexivity|]. intros Hlt. lia.
  - apply Nat.leb_le in H3. rewrite H3. apply Nat.leb_le in H3.
    assert (Hlen : length (firstn (max_len - 3) text ++ lit "...")
                   = max_len).
    { rewrite length_app, length_firstn. simpl. lia. }
    split; [lia|]. split; [lia|]. intros _. split; [reflexivity|exact Hlen].
Qed.

End LoadersMore.

Lemma extract_text_from_pdf_bytes_paragraphs_witness :
  In (lit "Two lines!")
     (page_paragraphs
        (Some (lit "One.  Two" ++ [ch_newline] ++ lit "lines!")))
  /\ ~ In ch_newline (lit "Two lines!").
Proof.
  assert (H : In (lit "Two lines!")
                 (page_paragraphs
                    (Some (lit "One.  Two" ++ [ch_newline] ++ lit "lines!"))))
    by (vm_compute; tauto).
  split; [exact H|].
  refine (proj2 (proj2
    (@extract_text_from_pdf_bytes_paragraphs ascii_db
       {| http_get := fun _ => inl [];
          soup_find_all_p := fun _ => [];
          soup_get_text := fun _ => [];
          read_bytes := fun _ => inl [];
          pdf_pages := fun _ =>
            inr [Some (lit "One.  Two" ++ [ch_newline] ++ lit "lines!")];
          doc_save := fun _ _ => None |}
       [] _ (lit "Two lines!") eq_refl _))).
  vm_compute. tauto.
Defined.


Lemma shorten_text_bound_witness :
  (3 <= 40)%nat
  /\ (length (shorten_text
                (lit "Plik PDF: annual-report-of-the-year-2024-final.pdf")
                40) <= 40)%nat.
Proof.
  split; [lia|].
  apply (proj1 (shorten_text_bound
                  (lit "Plik PDF: annual-report-of-the-year-2024-final.pdf")
                  (max_len := 40) ltac:(lia))).
Defined.

(** * Further properties of the shell *)

Section Dictionaries.
Variable V : Type.

Lemma dict_get_set_same : forall (d : list (str * V)) k v,
    dict_get (dict_set d k v) k = Some v.
Proof.
  induction d as [|[k' v'] d IH]; intros k v; simpl.
  - assert (H : str_eqb k k = true) by (apply str_eqb_eq; reflexivity).
    rewrite H. reflexivity.
  - destruct (str_eqb k' k) eqn:E; simpl; rewrite E; [reflexivity|].
    apply IH.
Qed.

Lemma dict_get_set_other : forall (d : list (str * V)) k k' v,
    k <> k' -> dict_get (dict_set d k v) k' = dict_get d k'.
Proof.
  induction d as [|[k0 v0] d IH]; intros k k' v Hne; simpl.
  - destruct (str_eqb k k') eqn:E; [|reflexivity].
    apply str_eqb_eq in E. congruence.
  - destruct (str_eqb k0 k) eqn:E; simpl.
    + apply str_eqb_eq in E. subst k0.
      destruct (str_eqb k k') eqn:E'; [|reflexivity].
      apply str_eqb_eq in E'. congruence.
    + destruct (str_eqb k0 k'); [reflexivity|]. apply IH. exact Hne.
Qed.

Lemma dict_set_keys_present : forall (d : list (str * V)) k v,
    In k (map fst d) -> map fst (dict_set d k v) = map fst d.
Proof.
  induction d as [|[k' v'] d IH]; intros k v H; simpl in *.
  - contradiction.
  - destruct (str_eqb k' k) eqn:E; simpl; [reflexivity|].
    f_equal. apply IH. destruct H as [H | H]; [|exact H].
    subst k'. assert (str_eqb k k = true) by (apply str_eqb_eq; reflexivity).
    congruence.
Qed.

Lemma dict_set_fresh : forall (d : list (str * V)) k v,
    ~ In k (map fst d) -> dict_set d k v = d ++ [(k, v)].
Proof.
  induction d as [|[k' v'] d IH]; intros k v H; simpl in *.
  - reflexivity.
  - destruct (str_eqb k' k) eqn:E.
    + apply str_eqb_eq in E. tauto.
    + f_equal. apply IH. tauto.
Qed.

Lemma dict_set_keys : forall (d : list (str * V)) k v,
    map fst (dict_set d k v) = map fst d
    \/ (~ In k (map fst d) /\ map fst (dict_set d k v) = map fst d ++ [k]).
Proof.
  intros d k v. destruct (in_dec (list_eq_dec N.eq_dec) k (map fst d)) as [H|H].
  - left. apply dict_set_keys_present. exact H.
  - right. split; [exact H|]. rewrite dict_set_fresh by exact H.
    rewrite map_app. reflexivity.
Qed.

Lemma NoDup_snoc : forall (l : list str) k,
    NoDup l -> ~ In k l -> NoDup (l ++ [k]).
Proof.
  intros l k Hl Hk. apply NoDup_app; [exact Hl | repeat constructor; tauto |].
  intros x Hx [<- | []]. exact (Hk Hx).
Qed.

(** Writing under a key and reading it back gives the value written;
    every other key reads as before; the keys stay distinct, none is lost
    and a present key keeps its place. *)
Theorem dict_set_get : forall (d : list (str * V)) (k : str) (v : V),
    dict_get (dict_set d k v) k = Some v
    /\ (forall k', k <> k' -> dict_get (dict_set d k v) k' = dict_get d k')
    /\ (NoDup (map fst d) -> NoDup (map fst (dict_set d k v)))
    /\ (In k (map fst d) -> map fst (dict_set d k v) = map fst d)
    /\ (~ In k (map fst d) -> map fst (dict_set d k v) = map fst d ++ [k]).
Proof.
  intros d k v. split; [apply dict_get_set_same|].
  split; [intros k' H; apply dict_get_set_other; exact H|].
  split; [|split].
  - intros Hnd. destruct (dict_set_keys d k v) as [E | [Hk E]]; rewrite E.
    + exact Hnd.
    + apply NoDup_snoc; assumption.
  - apply dict_set_keys_present.
  - intros H. rewrite dict_set_fresh by exact H. rewrite map_app.
    reflexivity.
Qed.

End Dictionaries.

Section ShellMore.
Context {db : CharDB} {w : World}.

Lemma load_files_step : forall st log f rest i total,
    load_files st log (f :: rest) i total
    = match file_paragraphs f with
      | inl e => inl (abort st e, log ++ [EvOpen (f_path f)])
      | inr pars =>
          load_files
            (with_progress
               (with_sources st (dict_set (source_paragraphs st)
                                          (file_key f) pars))
               (progress_visible st) (S i, total))
            (log ++ [EvOpen (f_path f)]) rest (S i) total
      end.
Proof.
  intros st log f rest i total. cbn [load_files]. unfold file_paragraphs.
  destruct (read_bytes (f_path f)); [reflexivity|].
  destruct (extract_text_from_pdf_bytes l); reflexivity.
Qed.

(** What the loop over the files leaves, whether it ends early or not. *)
Lemma load_files_spec : forall files st log i total,
    let r := load_files st log files i total in
    let st' := fst (outcome r) in
    source_checkboxes st' = source_checkboxes st
    /\ filter_column st' = filter_column st
    /\ output_area st' = output_area st
    /\ keywords st' = keywords st
    /\ (NoDup (map fst (source_paragraphs st)) ->
        NoDup (map fst (source_paragraphs st')))
    /\ incl (map fst (source_paragraphs st))
            (map fst (source_paragraphs st'))
    /\ (exists n, snd (outcome r)
                  = log ++ map (fun f => EvOpen (f_path f)) (firstn n files))
    /\ match r with
       | inl _ => progress_visible st' = false
                  /\ exists msg, snack_bar st' = Some msg
       | inr _ => progress_visible st' = progress_visible st
                  /\ snack_bar st' = snack_bar st
       end.
Proof.
  induction files as [|f rest IH]; intros st log i total.
  - simpl. repeat split; auto using incl_refl.
    exists O. simpl. rewrite app_nil_r. reflexivity.
  - cbv zeta. rewrite load_files_step.
    destruct (file_paragraphs f) as [e|pars].
    + simpl. repeat split; auto using incl_refl.
      * exists 1%nat. reflexivity.
      * eexists. reflexivity.
    + match goal with
      | |- context [load_files ?s ?l rest (S i) total] =>
          specialize (IH s l (S i) total); cbv zeta in IH;
          destruct IH as (H1 & H2 & H3 & H4 & H5 & H6 & (n & H7) & H8)
      end.
      cbn [with_progress with_sources source_checkboxes filter_column
           output_area keywords source_paragraphs progress_visible
           snack_bar] in *.
      repeat split; try assumption.
      * intros Hnd. apply H5.
        destruct (dict_set_keys (source_paragraphs st) (file_key f) pars)
          as [E | [Hk E]]; rewrite E; [exact Hnd|].
        apply NoDup_snoc; assumption.
      * intros x Hx. apply H6.
        destruct (dict_set_keys (source_paragraphs st) (file_key f) pars)
          as [E | [Hk E]]; rewrite E; [exact Hx|].
        apply in_or_app. left. exact Hx.
      * exists (S n). rewrite H7. rewrite <- app_assoc. reflexivity.
Qed.

Lemma add_checkboxes_spec : forall l st,
    NoDup l ->
    (forall s, In s l -> ~ In s (map fst (source_checkboxes st))) ->
    source_checkboxes (add_checkboxes st l)
    = source_checkboxes st ++ map mk_checkbox l
    /\ filter_column (add_checkboxes st l) = filter_column st ++ l
    /\ source_paragraphs (add_checkboxes st l) = source_paragraphs st
    /\ keywords (add_checkboxes st l) = keywords st
    /\ output_area (add_checkboxes st l) = output_area st
    /\ snack_bar (add_checkboxes st l) = snack_bar st
    /\ progress_visible (add_checkboxes st l) = progress_visible st.
Proof.
  induction l as [|s l IH]; intros st Hnd Hfresh.
  - simpl. rewrite !app_nil_r. repeat split.
  - inversion Hnd as [|? ? Hs Hnd']; subst. cbn [add_checkboxes].
    match goal with
    | |- context [add_checkboxes ?s' l] =>
        destruct (IH s' Hnd') as (H1 & H2 & H3 & H4 & H5 & H6 & H7)
    end.
    + cbn [source_checkboxes]. intros x Hx.
      rewrite dict_set_fresh by (apply Hfresh; left; reflexivity).
      rewrite map_app. intros Hin. apply in_app_or in Hin.
      destruct Hin as [Hin | [<- | []]].
      * apply (Hfresh x); [right; exact Hx | exact Hin].
      * exact (Hs Hx).
    + rewrite H1, H2, H3, H4, H5, H6, H7.
      cbn [source_checkboxes filter_column source_paragraphs keywords
           output_area snack_bar progress_visible].
      rewrite dict_set_fresh by (apply Hfresh; left; reflexivity).
      rewrite <- !app_assoc. repeat split.
Qed.

Lemma selected_mk_checkbox : forall l,
    map fst (filter (fun e => cb_value (snd e)) (map mk_checkbox l)) = l.
Proof.
  induction l as [|s l IH]; simpl; [reflexivity | f_equal; exact IH].
Qed.

(** The exits of [process_click]. *)
Lemma process_click_exits : forall (st : Shell) (form : Form),
    let url := strip (url_field form) in
    let kraw := strip (keywords_field form) in
    let st0 := cleared st (parse_keywords kraw) in
    let files := picked_files form in
    (exists msg,
        process_click st form = (with_snack st msg, [])
        /\ ((url = [] /\ file_picker_result form = None) \/ kraw = []))
    \/ (exists e,
           url <> [] /\ kraw <> [] /\ extract_text_from_url url = inl e
           /\ process_click st form = (abort st0 e, [EvGet url]))
    \/ (exists st1 log1,
           (url = [] -> file_picker_result form <> None)
           /\ kraw <> []
           /\ ((url = [] /\ st1 = st0 /\ log1 = [])
               \/ (url <> []
                   /\ exists pars,
                     extract_text_from_url url = inr pars
                     /\ st1 = with_sources st0 [(lit "URL: " ++ url, pars)]
                     /\ log1 = [EvGet url]))
           /\ ((exists failed,
                   load_files st1 log1 files O (length files) = inl failed
                   /\ process_click st form = failed)
               \/ (exists st2 log2,
                      load_files st1 log1 files O (length files)
                      = inr (st2, log2)
                      /\ process_click st form
                         = (update_output
                              (add_checkboxes
                                 (with_progress st2 false (progress_value st2))
                                 (map fst (source_paragraphs st2))),
                            log2)))).
Proof.
  intros st form url kraw st0 files. unfold process_click.
  fold url kraw. fold (cleared st (parse_keywords kraw)). fold st0.
  fold files.
  destruct url as [|u us] eqn:Eu.
  - destruct (file_picker_result form) as [ev|] eqn:Ef; cbn [is_empty andb].
    + destruct kraw as [|k ks] eqn:Ek; cbn [is_empty].
      * left. eexists. split; [reflexivity | right; reflexivity].
      * right. right. exists st0, []. split; [discriminate|].
        split; [discriminate|]. split; [left; auto|].
        destruct (load_files st0 [] files O (length files))
          as [failed|[st2 log2]] eqn:El.
        -- left. exists failed. auto.
        -- right. exists st2, log2. auto.
    + left. eexists. split; [reflexivity | left; auto].
  - cbn [is_empty andb].
    destruct kraw as [|k ks] eqn:Ek; cbn [is_empty].
    + left. eexists. split; [reflexivity | right; reflexivity].
    + destruct (extract_text_from_url (u :: us)) as [e|pars] eqn:Ex.
      * right. left. exists e. repeat split; try discriminate; reflexivity.
      * right. right.
        exists (with_sources st0 [(lit "URL: " ++ u :: us, pars)]),
          [EvGet (u :: us)].
        split; [intros; discriminate|]. split; [discriminate|].
        split; [right; split; [discriminate|]; exists pars; auto|].
        change (with_sources st0
                  (dict_set (source_paragraphs st0)
                            (lit "URL: " ++ u :: us) pars))
          with (with_sources st0 [(lit "URL: " ++ u :: us, pars)]).
        destruct (load_files
                    (with_sources st0 [(lit "URL: " ++ u :: us, pars)])
                    [EvGet (u :: us)] files O (length files))
          as [failed|[st2 log2]] eqn:El.
        -- left. exists failed. auto.
        -- right. exists st2, log2. auto.
Qed.

End ShellMore.

Section ShellRuns.
Context {db : CharDB} {w : World}.

Lemma load_files_fails : forall files st log i total,
    Exists (fun f => exists e, file_paragraphs f = inl e) files ->
    exists failed, load_files st log files i total = inl failed.
Proof.
  induction files as [|f rest IH]; intros st log i total H.
  - inversion H.
  - rewrite load_files_step.
    destruct (file_paragraphs f) as [e|pars] eqn:E.
    + eexists. reflexivity.
    + inversion H as [? ? [e He]|? ? Hrest]; subst; [congruence|].
      apply IH. exact Hrest.
Qed.

Lemma load_files_succeeds : forall files st log i total,
    Forall (fun f => exists ps, file_paragraphs f = inr ps) files ->
    exists st2,
      load_files st log files i total
      = inr (st2, log ++ map (fun f => EvOpen (f_path f)) files)
      /\ forall f, In f files ->
                   In (file_key f) (map fst (source_paragraphs st2)).
Proof.
  induction files as [|f rest IH]; intros st log i total H.
  - exists st. simpl. rewrite app_nil_r. split; [reflexivity | tauto].
  - inversion H as [|? ? [ps Hps] Hrest]; subst.
    rewrite load_files_step, Hps.
    match goal with
    | |- context [load_files ?s ?l rest (S i) total] =>
        destruct (IH s l (S i) total Hrest) as (st2 & E & Hkeys);
        pose proof (load_files_spec rest s l (S i) total) as Hspec
    end.
    exists st2. rewrite E. split.
    + cbn [map]. rewrite <- app_assoc. reflexivity.
    + intros g [<- | Hg]; [|apply Hkeys; exact Hg].
      cbv zeta in Hspec. rewrite E in Hspec. cbn [outcome fst] in Hspec.
      destruct Hspec as (_ & _ & _ & _ & _ & Hincl & _).
      apply Hincl. cbn [with_progress with_sources source_paragraphs].
      destruct (dict_set_keys (source_paragraphs st) (file_key f) ps)
        as [Hp | [_ Hp]].
      * rewrite Hp. destruct (in_dec (list_eq_dec N.eq_dec) (file_key f)
                                      (map fst (source_paragraphs st)))
          as [Hin | Hnin]; [exact Hin|].
        rewrite dict_set_fresh in Hp by exact Hnin.
        rewrite map_app in Hp. apply (f_equal (@length _)) in Hp.
        rewrite length_app in Hp. simpl in Hp. lia.
      * rewrite Hp. apply in_or_app. right. left. reflexivity.
Qed.

(** The two validation exits, the session invariant and what every run
    leaves behind are gathered from [process_click_exits]. *)
Lemma session_ok_with_snack : forall st msg,
    session_ok st -> session_ok (with_snack st msg).
Proof.
  intros st msg H. exact H.
Qed.

Lemma session_ok_toggle : forall st source value,
    session_ok st -> session_ok (toggle_source st source value).
Proof.
  intros st source value (H1 & H2 & H3).
  unfold toggle_source, update_output, session_ok.
  cbn [with_output source_paragraphs source_checkboxes].
  assert (E : map fst
                (map (fun e : str * Checkbox =>
                        if str_eqb (fst e) source
                        then (fst e, {| cb_label := cb_label (snd e);
                                        cb_value := value |})
                        else e) (source_checkboxes st))
              = map fst (source_checkboxes st)).
  { rewrite map_map. apply map_ext. intros [k cb]. simpl.
    destruct (str_eqb k source); reflexivity. }
  rewrite E. auto.
Qed.

(** The session invariant: the keys of the source mapping are distinct,
    those of the checkboxes too, and every checkbox belongs to a source of
    the mapping.  Every handler keeps it. *)
Theorem session_ok_preserved : forall st : Shell,
    session_ok st ->
    (forall form, session_ok (fst (process_click st form)))
    /\ session_ok (update_output st)
    /\ (forall ev_path, session_ok (fst (on_save_result st ev_path)))
    /\ (forall source value, session_ok (toggle_source st source value)).
Proof.
  intros st Hok. split; [|split; [|split]].
  - intros form.
    destruct (process_click_exits st form)
      as [(msg & E & _) | [(e & _ & _ & _ & E) | (st1 & log1 & _ & _ & H1 & H2)]].
    + rewrite E. exact Hok.
    + rewrite E. repeat split; simpl; try constructor. intros x [].
    + assert (Hst1 : source_checkboxes st1 = []
                     /\ NoDup (map fst (source_paragraphs st1))).
      { destruct H1 as [(_ & -> & _) | (_ & pars & _ & -> & _)]; simpl;
          split; try reflexivity; repeat constructor. intros []. }
      destruct Hst1 as [Hcb Hnd].
      pose proof (load_files_spec (picked_files form) st1 log1 O
                    (length (picked_files form))) as Hspec.
      cbv zeta in Hspec.
      destruct H2 as [(failed & El & E) | (st2 & log2 & El & E)];
        rewrite El in Hspec; cbn [outcome fst] in Hspec;
        destruct Hspec as (S1 & _ & _ & _ & S5 & _); rewrite E.
      * unfold session_ok. rewrite S1, Hcb. simpl.
        repeat split; [apply S5; exact Hnd | constructor | intros x []].
      * cbn [fst]. unfold update_output, session_ok.
        cbn [with_output source_paragraphs source_checkboxes].
        match goal with
        | |- context [add_checkboxes ?s ?l] =>
            destruct (@add_checkboxes_spec l s) as (A1 & _ & A3 & _)
        end.
        -- apply S5. exact Hnd.
        -- cbn [with_progress source_checkboxes]. rewrite S1, Hcb.
           intros s _ [].
        -- rewrite A1, A3. cbn [with_progress source_checkboxes
                                 source_paragraphs].
           rewrite S1, Hcb. cbn [app].
           assert (Ek : forall l, map fst (map mk_checkbox l) = l).
           { intros l. rewrite map_map. simpl. apply map_id. }
           rewrite Ek. repeat split; [apply S5; exact Hnd
                                     | apply S5; exact Hnd
                                     | apply incl_refl].
  - exact Hok.
  - intros [[|c path]|]; simpl; try exact Hok.
    destruct (save_as_docx _ _); exact Hok.
  - intros source value. apply session_ok_toggle. exact Hok.
Qed.

(** The files the loop opens: a prefix of the list, in which only the last
    file can fail, and which is the whole list unless its last file
    fails. *)
Lemma load_files_log : forall files st log i total,
    exists opened rest,
      files = opened ++ rest
      /\ snd (outcome (load_files st log files i total))
         = log ++ map (fun f => EvOpen (f_path f)) opened
      /\ (forall l1 f l2,
             opened = l1 ++ f :: l2 ->
             (exists e, file_paragraphs f = inl e) -> l2 = [])
      /\ (rest <> [] ->
          exists l1 f e, opened = l1 ++ [f] /\ file_paragraphs f = inl e).
Proof.
  induction files as [|f files IH]; intros st log i total.
  - exists [], []. split; [reflexivity|]. split.
    + simpl. rewrite app_nil_r. reflexivity.
    + split; [|congruence]. intros [|x l1] g l2 E; discriminate E.
  - rewrite load_files_step.
    destruct (file_paragraphs f) as [e|pars] eqn:Ef.
    + exists [f], files. split; [reflexivity|]. split; [reflexivity|]. split.
      * intros [|x [|y l1]] g l2 E _; try discriminate E.
        injection E as _ <-. reflexivity.
      * intros _. exists [], f, e. split; [reflexivity | exact Ef].
    + match goal with
      | |- context [load_files ?s ?l files (S i) total] =>
          destruct (IH s l (S i) total) as (opened & rest & E & Hlog & H1 & H2)
      end.
      exists (f :: opened), rest. split; [rewrite E; reflexivity|]. split.
      * rewrite Hlog. cbn [map]. rewrite <- app_assoc. reflexivity.
      * split.
        -- intros [|x l1] g l2 El (e & He).
           ++ injection El as <- _. congruence.
           ++ injection El as _ El. eapply H1; [exact El|].
              exists e. exact He.
        -- intros Hrest. destruct (H2 Hrest) as (l1 & g & e & -> & He).
           exists (f :: l1), g, e. split; [reflexivity | exact He].
Qed.

(** What a run touches: [process_click] never writes a document, fetches
    at most once and before anything else, and opens picked files in their
    order, none after the first that fails: the files opened are all the
    picked files unless the run ended before the loop, on an input that is
    missing or a page that did not load, or at a file that failed, which
    is then the last one opened. *)
Theorem process_click_log : forall (st : Shell) (form : Form),
    exists gets opened rest,
      picked_files form = opened ++ rest
      /\ snd (process_click st form)
         = gets ++ map (fun f => EvOpen (f_path f)) opened
      /\ (gets = [] \/ gets = [EvGet (strip (url_field form))])
      /\ (forall l1 f l2,
             opened = l1 ++ f :: l2 ->
             (exists e, file_paragraphs f = inl e) -> l2 = [])
      /\ (rest <> [] ->
          (exists l1 f e, opened = l1 ++ [f] /\ file_paragraphs f = inl e)
          \/ (opened = []
              /\ (strip (keywords_field form) = []
                  \/ exists e,
                     strip (url_field form) <> []
                     /\ extract_text_from_url (strip (url_field form))
                        = inl e))).
Proof.
  intros st form.
  destruct (process_click_exits st form)
    as [(msg & E & Hv) | [(e & Hu & _ & He & E)
                         | (st1 & log1 & _ & _ & H1 & H2)]].
  - exists [], [], (picked_files form). rewrite E.
    split; [reflexivity|]. split; [reflexivity|].
    split; [left; reflexivity|]. split.
    + intros [|x l1] g l2 El; discriminate El.
    + intros Hrest. right. split; [reflexivity|].
      destruct Hv as [[_ Hnone] | Hk]; [|left; exact Hk].
      exfalso. apply Hrest. unfold picked_files. rewrite Hnone. reflexivity.
  - exists [EvGet (strip (url_field form))], [], (picked_files form).
    rewrite E. split; [reflexivity|]. split; [reflexivity|].
    split; [right; reflexivity|]. split.
    + intros [|x l1] g l2 El; discriminate El.
    + intros _. right. split; [reflexivity|]. right. exists e.
      split; assumption.
  - destruct (load_files_log (picked_files form) st1 log1 O
                             (length (picked_files form)))
      as (opened & rest & Ef & Hlog & Hfirst & Hlast).
    exists log1, opened, rest. split; [exact Ef|]. split; [|split; [|split]].
    + destruct H2 as [(failed & El & E) | (st2 & log2 & El & E)];
        rewrite El in Hlog; rewrite E; exact Hlog.
    + destruct H1 as [(_ & _ & ->) | (_ & pars & _ & _ & ->)];
        [left | right]; reflexivity.
    + exact Hfirst.
    + intros Hrest. left. apply Hlast. exact Hrest.
Qed.

End ShellRuns.

Lemma session_ok_preserved_witness :
  session_ok initial_shell
  /\ session_ok
       (fst (@process_click ascii_db demo_world initial_shell demo_form)).
Proof.
  assert (H : session_ok initial_shell).
  { repeat split; simpl; try constructor. intros x []. }
  split; [exact H|].
  apply (proj1 (@session_ok_preserved ascii_db demo_world initial_shell H)).
Defined.

Section ShellOutcomes.
Context {db : CharDB} {w : World}.

(** A run in which the page, if a URL was given, and every picked file
    load: each loaded source has its checkbox, ticked, in the order of the
    mapping; the URL and every picked file are among the sources; the
    displayed text is the formatted selection; the progress widgets are
    hidden and no notification is shown. *)
Theorem process_click_success : forall (st : Shell) (form : Form),
    (strip (url_field form) = [] -> file_picker_result form <> None) ->
    strip (keywords_field form) <> [] ->
    (strip (url_field form) = []
     \/ exists pars,
        extract_text_from_url (strip (url_field form)) = inr pars) ->
    Forall (fun f => exists ps, file_paragraphs f = inr ps)
           (picked_files form) ->
    source_checkboxes (fst (process_click st form))
    = map mk_checkbox
          (map fst (source_paragraphs (fst (process_click st form))))
    /\ filter_column (fst (process_click st form))
       = map fst (source_paragraphs (fst (process_click st form)))
    /\ selected_sources (fst (process_click st form))
       = map fst (source_paragraphs (fst (process_click st form)))
    /\ output_area (fst (process_click st form))
       = build_result_text_with_sources
           (select (fst (process_click st form)))
           (keywords (fst (process_click st form)))
    /\ keywords (fst (process_click st form))
       = parse_keywords (strip (keywords_field form))
    /\ progress_visible (fst (process_click st form)) = false
    /\ snack_bar (fst (process_click st form)) = snack_bar st
    /\ (strip (url_field form) <> [] ->
        In (lit "URL: " ++ strip (url_field form))
           (map fst (source_paragraphs (fst (process_click st form)))))
    /\ (forall f, In f (picked_files form) ->
                  In (file_key f)
                     (map fst
                          (source_paragraphs (fst (process_click st form)))))
    /\ snd (process_click st form)
       = (if is_empty (strip (url_field form)) then []
          else [EvGet (strip (url_field form))])
           ++ map (fun f => EvOpen (f_path f)) (picked_files form).
Proof.
  intros st form Hsrc Hk Hurl Hfiles.
  destruct (process_click_exits st form)
    as [(msg & _ & [[Hu Hf] | Hk'])
       | [(e & Hu & _ & He & _) | (st1 & log1 & _ & _ & H1 & H2)]].
  - exfalso. exact (Hsrc Hu Hf).
  - congruence.
  - exfalso. destruct Hurl as [Hu' | (pars & Hp)]; congruence.
  - destruct (load_files_succeeds st1 log1 O (length (picked_files form))
                                  Hfiles) as (st2 & El & Hkeys).
    pose proof (load_files_spec (picked_files form) st1 log1 O
                  (length (picked_files form))) as Hspec.
    cbv zeta in Hspec. rewrite El in Hspec. cbn [outcome fst snd] in Hspec.
    destruct Hspec as (S1 & S2 & S3 & S4 & S5 & S6 & _ & S8 & S9).
    destruct H2 as [(failed & El' & _) | (st2' & log2 & El' & E)];
      [congruence|].
    rewrite El in El'. injection El' as <- <-.
    assert (Hst1 : source_checkboxes st1 = [] /\ filter_column st1 = []
                   /\ NoDup (map fst (source_paragraphs st1))
                   /\ keywords st1
                      = parse_keywords (strip (keywords_field form))
                   /\ snack_bar st1 = snack_bar st).
    { destruct H1 as [(_ & -> & _) | (_ & pars & _ & -> & _)]; simpl;
        repeat split; repeat constructor. intros []. }
    destruct Hst1 as (Hcb & Hfc & Hnd & Hkw & Hsn).
    destruct (@add_checkboxes_spec (map fst (source_paragraphs st2))
                (with_progress st2 false (progress_value st2)))
      as (A1 & A2 & A3 & A4 & A5 & A6 & A7).
    { apply S5. exact Hnd. }
    { cbn [with_progress source_checkboxes]. rewrite S1, Hcb.
      intros s _ []. }
    cbn [with_progress source_checkboxes filter_column source_paragraphs
         keywords output_area snack_bar progress_visible] in *.
    rewrite S1, Hcb in A1. rewrite S2, Hfc in A2. cbn [app] in A1, A2.
    rewrite E. cbn [fst snd]. unfold update_output, selected_sources.
    cbn [with_output source_checkboxes filter_column source_paragraphs
         keywords output_area snack_bar progress_visible].
    rewrite A1, A2, A3, A4, A6, A7.
    split; [reflexivity|]. split; [reflexivity|].
    split; [apply selected_mk_checkbox|].
    split; [reflexivity|]. split; [congruence|].
    split; [reflexivity|]. split; [congruence|].
    split; [|split].
    + intros Hu. apply S6.
      destruct H1 as [(Hu' & _) | (_ & pars & _ & -> & _)]; [congruence|].
      left. reflexivity.
    + exact Hkeys.
    + destruct H1 as [(-> & _ & ->) | (Hu & pars & _ & _ & ->)].
      * reflexivity.
      * destruct (strip (url_field form)); [congruence | reflexivity].
Qed.

(** A run in which a picked file cannot be read or decoded: the
    notification shows the error, the progress widgets are hidden, there
    are no checkboxes and so nothing can be selected, the displayed text is
    the one from before the submit; the page loaded before the failure
    stays in the source mapping. *)
Theorem process_click_file_failure : forall (st : Shell) (form : Form),
    strip (keywords_field form) <> [] ->
    (strip (url_field form) = []
     \/ exists pars,
        extract_text_from_url (strip (url_field form)) = inr pars) ->
    Exists (fun f => exists e, file_paragraphs f = inl e)
           (picked_files form) ->
    source_checkboxes (fst (process_click st form)) = []
    /\ filter_column (fst (process_click st form)) = []
    /\ select (fst (process_click st form)) = []
    /\ output_area (fst (process_click st form)) = output_area st
    /\ progress_visible (fst (process_click st form)) = false
    /\ (exists msg, snack_bar (fst (process_click st form)) = Some msg)
    /\ (strip (url_field form) <> [] ->
        In (lit "URL: " ++ strip (url_field form))
           (map fst (source_paragraphs (fst (process_click st form))))).
Proof.
  intros st form Hk Hurl Hbad.
  destruct (process_click_exits st form)
    as [(msg & _ & [[Hu Hf] | Hk'])
       | [(e & Hu & _ & He & _) | (st1 & log1 & _ & _ & H1 & H2)]].
  - exfalso. unfold picked_files in Hbad. rewrite Hf in Hbad.
    inversion Hbad.
  - congruence.
  - exfalso. destruct Hurl as [Hu' | (pars & Hp)]; congruence.
  - destruct (load_files_fails st1 log1 O (length (picked_files form)) Hbad)
      as (failed & El).
    pose proof (load_files_spec (picked_files form) st1 log1 O
                  (length (picked_files form))) as Hspec.
    cbv zeta in Hspec. rewrite El in Hspec. cbn [outcome] in Hspec.
    destruct Hspec as (S1 & S2 & S3 & S4 & S5 & S6 & _ & S8 & S9).
    destruct H2 as [(failed' & El' & E) | (st2' & log2 & El' & _)];
      [|congruence].
    rewrite El in El'. injection El' as <-. rewrite E.
    assert (Hst1 : source_checkboxes st1 = [] /\ filter_column st1 = []
                   /\ output_area st1 = output_area st).
    { destruct H1 as [(_ & -> & _) | (_ & pars & _ & -> & _)]; simpl;
        repeat split. }
    destruct Hst1 as (Hcb & Hfc & Hout).
    split; [congruence|]. split; [congruence|].
    split.
    { unfold select, selected_sources. rewrite S1, Hcb. reflexivity. }
    split; [congruence|]. split; [exact S8|]. split; [exact S9|].
    intros Hu. apply S6.
    destruct H1 as [(Hu' & _) | (_ & pars & _ & -> & _)]; [congruence|].
    left. reflexivity.
Qed.

(** Unticking a source: afterwards the selection, and with it the
    displayed text, has no entry of that source. *)
Theorem toggle_source_off : forall (st : Shell) (source p : str),
    ~ In (source, p) (select (toggle_source st source false)).
Proof.
  intros st source p H. apply select_entry in H.
  destruct H as ((cb & Hin & Hv) & _).
  unfold toggle_source, update_output in Hin.
  cbn [with_output source_checkboxes] in Hin.
  apply in_map_iff in Hin. destruct Hin as ([k c] & Heq & _).
  cbn [fst snd] in Heq.
  destruct (str_eqb k source) eqn:E.
  - injection Heq as _ <-. simpl in Hv. discriminate.
  - injection Heq as -> _.
    assert (str_eqb source source = true) by (apply str_eqb_eq; reflexivity).
    congruence.
Qed.


End ShellOutcomes.

Lemma process_click_validation_witness :
  strip (keywords_field
           {| url_field := lit "http://ok"; keywords_field := lit "  ";
              file_picker_result := None |}) = []
  /\ exists msg,
    @process_click ascii_db demo_world demo_ready
      {| url_field := lit "http://ok"; keywords_field := lit "  ";
         file_picker_result := None |}
    = (with_snack demo_ready msg, []).
Proof.
  split; [vm_compute; reflexivity|].
  apply (@process_click_validation ascii_db demo_world).
  right. vm_compute. reflexivity.
Defined.

Lemma process_click_success_witness :
  strip (keywords_field demo_form) <> []
  /\ selected_sources
       (fst (@process_click ascii_db demo_world initial_shell demo_form))
     = [lit "URL: http://ok"].
Proof.
  split; [vm_compute; discriminate|].
  assert (H := @process_click_success ascii_db demo_world initial_shell
                 demo_form).
  destruct H as (_ & _ & H & _).
  - vm_compute. discriminate.
  - vm_compute. discriminate.
  - right. eexists. vm_compute. reflexivity.
  - constructor.
  - rewrite H. vm_compute. reflexivity.
Defined.

Lemma process_click_file_failure_witness :
  Exists (fun f => exists e,
              file_paragraphs (db := ascii_db) (w := demo_world) f = inl e)
         (picked_files demo_form_bad_file)
  /\ source_paragraphs
       (fst (@process_click ascii_db demo_world demo_ready
               demo_form_bad_file))
     = [(lit "URL: http://ok", [lit "Climate change affects agriculture."])]
  /\ source_checkboxes
       (fst (@process_click ascii_db demo_world demo_ready
               demo_form_bad_file))
     = [].
Proof.
  assert (Hbad : Exists (fun f => exists e,
                             file_paragraphs (db := ascii_db)
                                             (w := demo_world) f = inl e)
                        (picked_files demo_form_bad_file)).
  { constructor. eexists. vm_compute. reflexivity. }
  split; [exact Hbad|]. split; [vm_compute; reflexivity|].
  refine (proj1 (@process_click_file_failure ascii_db demo_world demo_ready
                   demo_form_bad_file _ _ Hbad)).
  - vm_compute. discriminate.
  - right. eexists. vm_compute. reflexivity.
Defined.


(** * Further properties of the exporter *)

Section Cleaning.
Context {db : CharDB}.

Lemma lazy_until_stars_body : forall body rest,
    Forall (fun c => c <> ch_star /\ c <> ch_newline) body ->
    lazy_until_stars (body ++ ch_star :: ch_star :: rest)
    = Some (length body).
Proof.
  induction body as [|c body IH]; intros rest H.
  - simpl. reflexivity.
  - inversion H as [|? ? [Hs Hn] Hb]; subst.
    cbn [app lazy_until_stars starts_with].
    apply N.eqb_neq in Hs. apply N.eqb_neq in Hn. rewrite Hs, Hn.
    cbn [andb]. rewrite (IH rest Hb). reflexivity.
Qed.

Lemma pat_strong_header : forall body rest prev,
    Forall (fun c => c <> ch_star /\ c <> ch_newline) body ->
    pat_strong prev (([ch_star; ch_star] ++ body ++ [ch_star; ch_star])
                      ++ rest)
    = Some (length ([ch_star; ch_star] ++ body ++ [ch_star; ch_star])).
Proof.
  intros body rest prev H. unfold pat_strong.
  rewrite <- !app_assoc. cbn [app starts_with skipn].
  rewrite !N.eqb_refl. cbn [andb].
  rewrite (lazy_until_stars_body rest H). cbn [option_map length].
  rewrite length_app. cbn [length]. f_equal. lia.
Qed.

Lemma group1_strong_header : forall body,
    group1_strong ([ch_star; ch_star] ++ body ++ [ch_star; ch_star]) = body.
Proof.
  intros body. unfold group1_strong. cbn [app skipn length].
  rewrite length_app. cbn [length].
  replace (S (S (length body + 2)) - 4)%nat with (length body) by lia.
  rewrite firstn_app, Nat.sub_diag, firstn_all, firstn_O.
  apply app_nil_r.
Qed.

Lemma has_double_star_suffix : forall a1 a2,
    has_double_star (a1 ++ a2) = false -> has_double_star a2 = false.
Proof.
  induction a1 as [|c a1 IH]; intros a2 H; [exact H|].
  cbn [app has_double_star] in H. apply orb_false_iff in H.
  apply IH. apply H.
Qed.

Lemma has_double_star_head : forall s,
    has_double_star s = false -> starts_with [ch_star; ch_star] s = false.
Proof.
  intros [|c s] H; [reflexivity|].
  cbn [has_double_star] in H. apply orb_false_iff in H. apply H.
Qed.

(** A star-free character between two texts: two stars side by side are
    in one of the texts. *)
Lemma has_double_star_app : forall a c t,
    c <> ch_star ->
    has_double_star (a ++ c :: t) = has_double_star a || has_double_star t.
Proof.
  intros a c t Hc. apply N.eqb_neq in Hc.
  induction a as [|x a IH].
  - cbn [app has_double_star starts_with]. rewrite Hc. reflexivity.
  - cbn [app has_double_star]. rewrite IH. rewrite orb_assoc. f_equal.
    f_equal. destruct a as [|y a]; cbn [app starts_with].
    + rewrite Hc. rewrite !andb_false_r. reflexivity.
    + reflexivity.
Qed.

Lemma quiet_no_match : forall a prev,
    has_double_star a = false -> search_from pat_strong prev a = false.
Proof.
  induction a as [|c a IH]; intros prev H.
  - reflexivity.
  - cbn [search_from]. unfold pat_strong at 1.
    rewrite (has_double_star_head _ H).
    cbn [has_double_star] in H. apply orb_false_iff in H.
    apply IH. apply H.
Qed.

Lemma quiet_local : forall a rest p,
    a <> [] -> has_double_star a = false ->
    opt_is (N.eqb ch_star) (last_char a) = false ->
    local_at pat_strong p a rest.
Proof.
  intros a rest p Hne Hds Hlast. unfold local_at, pat_strong.
  assert (H : starts_with [ch_star; ch_star] (a ++ rest) = false).
  { destruct a as [|c [|d t]]; [congruence| |].
    - unfold last_char, last_before in Hlast. cbn [rev app opt_is] in Hlast.
      cbn [app starts_with]. rewrite N.eqb_sym, Hlast. reflexivity.
    - apply has_double_star_head in Hds. exact Hds. }
  rewrite H, (has_double_star_head _ Hds). simpl.
  split; [reflexivity | discriminate].
Qed.

(** A text without two stars side by side that does not end with a star
    passes the removal of the header markers unchanged, whatever follows. *)
Lemma sub_strong_quiet : forall a rest prev,
    has_double_star a = false ->
    opt_is (N.eqb ch_star) (last_char a) = false ->
    sub_loop pat_strong group1_strong prev O (a ++ rest)
    = a ++ sub_loop pat_strong group1_strong None O rest.
Proof.
  intros a rest prev Hds Hlast. rewrite sub_loop_app.
  - f_equal.
    + apply sub_loop_no_match. apply quiet_no_match. exact Hds.
    + apply sub_loop_prev. reflexivity.
  - simpl. lia.
  - intros a1 a2 Ha Hne. apply quiet_local; [exact Hne | |].
    + rewrite Ha in Hds. eapply has_double_star_suffix. exact Hds.
    + eapply suffix_last_char; eauto.
Qed.

Lemma sub_strong_header : forall body rest prev,
    Forall (fun c => c <> ch_star /\ c <> ch_newline) body ->
    sub_loop pat_strong group1_strong prev O
             (([ch_star; ch_star] ++ body ++ [ch_star; ch_star]) ++ rest)
    = body ++ sub_loop pat_strong group1_strong None O rest.
Proof.
  intros body rest prev H.
  rewrite sub_loop_at_match.
  - rewrite group1_strong_header. f_equal. apply sub_loop_prev.
    reflexivity.
  - discriminate.
  - apply pat_strong_header. exact H.
Qed.

Lemma result_line_shape : forall kws entry,
    result_line kws entry
    = ([ch_star; ch_star] ++ (header_plain ++ fst entry)
         ++ [ch_star; ch_star])
        ++ ([ch_newline; ch_newline] ++ bold_keywords (snd entry) kws
              ++ [ch_newline]).
Proof.
  intros kws [source p]. unfold result_line, header_open, header_plain.
  change (lit "**") with [ch_star; ch_star]. cbn [fst snd].
  rewrite <- !app_assoc. reflexivity.
Qed.

Lemma header_body_ok : forall source,
    Forall (fun c => c <> ch_star /\ c <> ch_newline) source ->
    Forall (fun c => c <> ch_star /\ c <> ch_newline)
           (header_plain ++ source).
Proof.
  intros source H. apply Forall_app. split; [|exact H].
  unfold header_plain. repeat constructor; discriminate.
Qed.

Lemma paragraph_block_quiet : forall b tail,
    has_double_star b = false -> has_double_star tail = false ->
    has_double_star ([ch_newline; ch_newline] ++ b ++ ch_newline :: tail)
    = false.
Proof.
  intros b tail Hb Ht.
  change ([ch_newline; ch_newline] ++ b ++ ch_newline :: tail)
    with ([ch_newline] ++ ch_newline :: (b ++ ch_newline :: tail)).
  rewrite has_double_star_app by discriminate.
  rewrite has_double_star_app by discriminate.
  rewrite Hb, Ht. reflexivity.
Qed.

Lemma sub_strong_line : forall kws entry tail rest prev,
    exportable kws entry ->
    has_double_star tail = false ->
    opt_is (N.eqb ch_star) (last_before (Some ch_newline) tail) = false ->
    sub_loop pat_strong group1_strong prev O
             (result_line kws entry ++ tail ++ rest)
    = clean_line kws entry ++ tail
        ++ sub_loop pat_strong group1_strong None O rest.
Proof.
  intros kws entry tail rest prev (Hsrc & _ & Hds) Htail Hlast.
  rewrite result_line_shape. unfold clean_line.
  set (body := header_plain ++ fst entry).
  set (Q := [ch_newline; ch_newline] ++ bold_keywords (snd entry) kws
              ++ [ch_newline]).
  rewrite <- app_assoc.
  rewrite sub_strong_header by (apply header_body_ok; exact Hsrc).
  rewrite <- app_assoc. f_equal.
  rewrite (app_assoc Q tail rest).
  rewrite sub_strong_quiet.
  - rewrite <- app_assoc. reflexivity.
  - unfold Q. rewrite <- !app_assoc.
    apply (paragraph_block_quiet _ tail Hds Htail).
  - unfold Q, last_char. rewrite !last_before_app. exact Hlast.
Qed.

(** The removal of the header markers on a formatted result. *)
Lemma sub_strong_result : forall kws entries prev,
    Forall (exportable kws) entries ->
    sub_loop pat_strong group1_strong prev O
             (build_result_text_with_sources entries kws)
    = join ([ch_newline] ++ lit "---" ++ [ch_newline])
           (map (clean_line kws) entries).
Proof.
  intros kws entries. unfold build_result_text_with_sources.
  induction entries as [|e rest IH]; intros prev H.
  - reflexivity.
  - inversion H as [|? ? He Hrest]; subst. cbn [map].
    destruct rest as [|e' rest].
    + cbn [map join].
      pose proof (@sub_strong_line kws e [] [] prev He eq_refl eq_refl) as E.
      rewrite !app_nil_r in E. exact E.
    + change (join ?sep (?x :: map ?f (e' :: rest)))
        with (x ++ sep ++ join sep (map f (e' :: rest))).
      rewrite sub_strong_line; [|exact He|reflexivity|reflexivity].
      rewrite (IH None Hrest). reflexivity.
Qed.

End Cleaning.

Section Splitting.
Context {db : CharDB}.

Lemma split_blank_free : forall a prev,
    Forall (fun c => c <> ch_newline) a ->
    split_loop pat_blank_sep prev O a = [a].
Proof.
  induction a as [|c a IH]; intros prev H.
  - reflexivity.
  - inversion H as [|? ? Hc Ha]; subst. apply N.eqb_neq in Hc.
    rewrite split_loop_pos_len. unfold pat_blank_sep at 1.
    cbn [starts_with]. rewrite Hc. cbn [andb pos_len].
    rewrite (IH (Some c) Ha). reflexivity.
Qed.

Lemma split_blank_last : forall b prev,
    Forall (fun c => c <> ch_newline) b ->
    split_loop pat_blank_sep prev O (b ++ [ch_newline])
    = [b ++ [ch_newline]].
Proof.
  induction b as [|c b IH]; intros prev H.
  - reflexivity.
  - inversion H as [|? ? Hc Hb]; subst. apply N.eqb_neq in Hc.
    cbn [app]. rewrite split_loop_pos_len. unfold pat_blank_sep at 1.
    cbn [starts_with]. rewrite Hc. cbn [andb pos_len].
    rewrite (IH (Some c) Hb). reflexivity.
Qed.

Lemma pat_blank_sep_local : forall p a rest,
    Forall (fun c => c <> ch_newline) a -> a <> [] ->
    local_at pat_blank_sep p a rest.
Proof.
  intros p [|c a] rest H Hne; [congruence|].
  inversion H as [|? ? Hc _]; subst. apply N.eqb_neq in Hc.
  unfold local_at, pat_blank_sep. cbn [app starts_with]. rewrite Hc.
  simpl. split; [reflexivity | discriminate].
Qed.

(** A piece without a line break ends at the blank line after it. *)
Lemma split_blank_token : forall a rest prev,
    Forall (fun c => c <> ch_newline) a ->
    split_loop pat_blank_sep prev O (a ++ [ch_newline; ch_newline] ++ rest)
    = a :: split_loop pat_blank_sep None O rest.
Proof.
  intros a rest prev H. rewrite split_loop_app_match.
  - rewrite split_blank_free by exact H. cbn [app]. f_equal.
    apply split_loop_prev. reflexivity.
  - simpl. lia.
  - intros a1 a2 Ha Hne. apply pat_blank_sep_local; [|exact Hne].
    eapply Forall_suffix; eassumption.
  - discriminate.
  - reflexivity.
Qed.

Lemma split_blank_char : forall c s prev,
    c <> ch_newline ->
    split_loop pat_blank_sep prev O (c :: s)
    = cons_head c (split_loop pat_blank_sep (Some c) O s).
Proof.
  intros c s prev Hc. apply N.eqb_neq in Hc.
  rewrite split_loop_pos_len. unfold pat_blank_sep at 1.
  cbn [starts_with]. rewrite Hc. reflexivity.
Qed.

Lemma split_blank_single_newline : forall c s prev,
    c <> ch_newline ->
    split_loop pat_blank_sep prev O (ch_newline :: c :: s)
    = cons_head ch_newline (split_loop pat_blank_sep None O (c :: s)).
Proof.
  intros c s prev Hc. apply N.eqb_neq in Hc.
  rewrite split_loop_pos_len. unfold pat_blank_sep at 1.
  cbn [starts_with]. rewrite Hc, andb_false_r. cbn [pos_len].
  apply f_equal. apply split_loop_prev. reflexivity.
Qed.

(** The rule line has a single line break after it: it stays with the
    piece that follows. *)
Lemma split_blank_rule : forall c rest prev,
    c <> ch_newline ->
    split_loop pat_blank_sep prev O
               ([45; 45; 45; ch_newline] ++ c :: rest)
    = glue_first [45; 45; 45; ch_newline]
                 (split_loop pat_blank_sep None O (c :: rest)).
Proof.
  intros c rest prev Hc. cbn [app].
  rewrite !split_blank_char by discriminate.
  rewrite split_blank_single_newline by exact Hc.
  destruct (split_loop pat_blank_sep None O (c :: rest)) as [|x l] eqn:E.
  - apply split_loop_nonempty in E. contradiction.
  - reflexivity.
Qed.

Lemma clean_line_head : forall kws entry,
    exists t : str, clean_line kws entry = @cons char 377 t.
Proof.
  intros kws entry. unfold clean_line, header_plain. eexists. reflexivity.
Qed.

Lemma split_blank_clean : forall kws entries prev,
    Forall (exportable kws) entries -> entries <> [] ->
    split_loop pat_blank_sep prev O
               (join ([ch_newline] ++ lit "---" ++ [ch_newline])
                     (map (clean_line kws) entries))
    = document_pieces kws entries.
Proof.
  intros kws entries. induction entries as [|e rest IH];
    intros prev H Hne; [congruence|].
  inversion H as [|? ? (Hsrc & Hline & _) Hrest]; subst.
  assert (Hhead : Forall (fun c => c <> ch_newline)
                         (header_plain ++ fst e)).
  { apply Forall_app. split.
    - unfold header_plain. repeat constructor; discriminate.
    - eapply Forall_impl; [|exact Hsrc]. intros c Hc. apply Hc. }
  destruct rest as [|e' rest].
  - cbn [map join document_pieces]. unfold clean_line.
    rewrite split_blank_token by exact Hhead.
    rewrite split_blank_last by exact Hline. reflexivity.
  - change (join ?sep (map ?f (e :: e' :: rest)))
      with (f e ++ sep ++ join sep (map f (e' :: rest))).
    set (J := join ([ch_newline] ++ lit "---" ++ [ch_newline])
                   (map (clean_line kws) (e' :: rest))) in *.
    assert (HJ : exists t : str, J = @cons char 377 t).
    { unfold J. cbn [map]. destruct (clean_line_head kws e') as (t & Et).
      destruct (map (clean_line kws) rest).
      - exists t. exact Et.
      - cbn [join]. rewrite Et. eexists. reflexivity. }
    destruct HJ as (t & Et).
    assert (Eshape :
              clean_line kws e ++ ([ch_newline] ++ lit "---" ++ [ch_newline])
                ++ J
              = (header_plain ++ fst e) ++ [ch_newline; ch_newline]
                  ++ bold_keywords (snd e) kws ++ [ch_newline; ch_newline]
                  ++ [45; 45; 45; ch_newline] ++ J).
    { unfold clean_line. rewrite <- !app_assoc. reflexivity. }
    rewrite Eshape.
    rewrite split_blank_token by exact Hhead.
    rewrite split_blank_token by exact Hline.
    rewrite Et. rewrite split_blank_rule by discriminate.
    rewrite <- Et.
    rewrite (IH None Hrest ltac:(discriminate)). reflexivity.
Qed.

(** What the exporter writes for a formatted result: per entry the
    header without its markers and the paragraph with the emphasis markers
    of its keywords still in it; from the second entry on, the rule line is
    the first line of the header paragraph. *)
Theorem docx_paragraphs_result :
  forall (kws : list str) (entries : list (str * str)),
    Forall (exportable kws) entries ->
    docx_paragraphs (build_result_text_with_sources entries kws)
    = stripped_nonempty (document_pieces kws entries).
Proof.
  intros kws entries H. destruct entries as [|e rest] eqn:E.
  - reflexivity.
  - rewrite <- E in *. unfold docx_paragraphs, re_sub.
    rewrite sub_strong_result by exact H. unfold split_blank.
    change (fun (_ : option char) (t : str) =>
              if starts_with [ch_newline; ch_newline] t
              then Some 2%nat else None) with pat_blank_sep.
    rewrite split_blank_clean; [reflexivity | exact H |].
    rewrite E. discriminate.
Qed.

End Splitting.

Lemma docx_paragraphs_result_witness :
  Forall (exportable [lit "climate"])
         [(lit "URL: x", lit "Climate change affects agriculture.");
          (lit "Plik PDF: a.pdf", lit "The climate.")]
  /\ docx_paragraphs
       (build_result_text_with_sources
          [(lit "URL: x", lit "Climate change affects agriculture.");
           (lit "Plik PDF: a.pdf", lit "The climate.")]
          [lit "climate"])
     = [header_plain ++ lit "URL: x";
        lit "*Climate* change affects agriculture.";
        lit "---" ++ [ch_newline] ++ header_plain ++ lit "Plik PDF: a.pdf";
        lit "The *climate*."].
Proof.
  assert (H : Forall (exportable (db := ascii_db) [lit "climate"])
                     [(lit "URL: x",
                       lit "Climate change affects agriculture.");
                      (lit "Plik PDF: a.pdf", lit "The climate.")]).
  { repeat (apply Forall_cons || apply Forall_nil);
      (split; [|split]); cbn [fst snd];
      try (vm_compute; reflexivity);
      vm_compute;
      repeat match goal with
             | |- Forall _ (_ :: _) => apply Forall_cons
             | |- Forall _ [] => apply Forall_nil
             | |- _ /\ _ => split
             | |- _ <> _ => discriminate
             | |- _ -> False => discriminate
             end. }
  split; [exact H|].
  rewrite (@docx_paragraphs_result ascii_db _ _ H).
  vm_compute. reflexivity.
Defined.

(** * Files that share a name *)

Section SameName.
Context {db : CharDB} {w : World}.

Lemma file_key_inj : forall f g, file_key f = file_key g ->
                                 f_name f = f_name g.
Proof.
  intros f g H. unfold file_key in H. apply app_inv_head in H. exact H.
Qed.

Lemma load_files_other_key : forall files st log i total st2 log2 k,
    load_files st log files i total = inr (st2, log2) ->
    Forall (fun g => file_key g <> k) files ->
    dict_get (source_paragraphs st2) k = dict_get (source_paragraphs st) k.
Proof.
  induction files as [|f rest IH]; intros st log i total st2 log2 k E H.
  - simpl in E. injection E as <- _. reflexivity.
  - inversion H as [|? ? Hf Hrest]; subst.
    rewrite load_files_step in E.
    destruct (file_paragraphs f) as [e|pars]; [discriminate|].
    eapply eq_trans; [eapply IH; [exact E | exact Hrest]|].
    cbn [with_progress with_sources source_paragraphs].
    apply dict_get_set_other. exact Hf.
Qed.

Lemma load_files_last_key : forall l1 f l2 st log i total st2 log2 ps,
    load_files st log (l1 ++ f :: l2) i total = inr (st2, log2) ->
    Forall (fun g => f_name g <> f_name f) l2 ->
    file_paragraphs f = inr ps ->
    dict_get (source_paragraphs st2) (file_key f) = Some ps.
Proof.
  induction l1 as [|g l1 IH]; intros f l2 st log i total st2 log2 ps E H Hf.
  - cbn [app] in E. rewrite load_files_step, Hf in E.
    eapply eq_trans; [eapply load_files_other_key; [exact E|]|].
    + eapply Forall_impl; [|exact H]. intros g Hg Hk.
      apply Hg. apply file_key_inj. exact Hk.
    + cbn [with_progress with_sources source_paragraphs].
      apply dict_get_set_same.
  - cbn [app] in E. rewrite load_files_step in E.
    destruct (file_paragraphs g) as [e|pars]; [discriminate|].
    eapply IH; eassumption.
Qed.

(** Two picked files with the same name share one label: when the run
    succeeds, the paragraphs kept under the label are those of the last
    picked file with that name. *)
Theorem process_click_same_name :
  forall (st : Shell) (form : Form) (l1 l2 : list FilePickerFile)
         (f : FilePickerFile) (ps : list str),
    strip (keywords_field form) <> [] ->
    (strip (url_field form) = []
     \/ exists pars,
        extract_text_from_url (strip (url_field form)) = inr pars) ->
    Forall (fun g => exists qs, file_paragraphs g = inr qs)
           (picked_files form) ->
    picked_files form = l1 ++ f :: l2 ->
    Forall (fun g => f_name g <> f_name f) l2 ->
    file_paragraphs f = inr ps ->
    dict_get (source_paragraphs (fst (process_click st form))) (file_key f)
    = Some ps.
Proof.
  intros st form l1 l2 f ps Hk Hurl Hfiles Hsplit Hlast Hf.
  destruct (process_click_exits st form)
    as [(msg & _ & [[Hu Hr] | Hk'])
       | [(e & Hu & _ & He & _) | (st1 & log1 & _ & _ & H1 & H2)]].
  - exfalso. unfold picked_files in Hsplit. rewrite Hr in Hsplit.
    destruct l1; discriminate.
  - congruence.
  - exfalso. destruct Hurl as [Hu' | (pars & Hp)]; congruence.
  - destruct (load_files_succeeds st1 log1 O (length (picked_files form))
                                  Hfiles) as (st2 & El & _).
    destruct H2 as [(failed & El' & _) | (st2' & log2 & El' & E)];
      [congruence|].
    rewrite El in El'. injection El' as <- <-.
    pose proof (load_files_spec (picked_files form) st1 log1 O
                  (length (picked_files form))) as Hspec.
    cbv zeta in Hspec. rewrite El in Hspec. cbn [outcome fst] in Hspec.
    destruct Hspec as (S1 & _ & _ & _ & S5 & _).
    assert (Hst1 : source_checkboxes st1 = []
                   /\ NoDup (map fst (source_paragraphs st1))).
    { destruct H1 as [(_ & -> & _) | (_ & pars & _ & -> & _)]; simpl;
        split; try reflexivity; repeat constructor. intros []. }
    destruct Hst1 as [Hcb Hnd].
    destruct (@add_checkboxes_spec (map fst (source_paragraphs st2))
                (with_progress st2 false (progress_value st2)))
      as (_ & _ & A3 & _).
    { apply S5. exact Hnd. }
    { cbn [with_progress source_checkboxes]. rewrite S1, Hcb.
      intros s _ []. }
    rewrite E. cbn [fst]. unfold update_output.
    cbn [with_output source_paragraphs]. rewrite A3.
    cbn [with_progress source_paragraphs].
    rewrite Hsplit in El. eapply load_files_last_key; eassumption.
Qed.

End SameName.

Lemma process_click_same_name_witness :
  picked_files demo_form_same_name
  = [{| f_name := lit "r.pdf"; f_path := lit "/a/r.pdf" |}]
      ++ {| f_name := lit "r.pdf"; f_path := lit "/b/r.pdf" |} :: []
  /\ dict_get
       (source_paragraphs
          (fst (@process_click ascii_db demo_world_files initial_shell
                  demo_form_same_name)))
       (lit "Plik PDF: r.pdf")
     = Some [lit "/b/r.pdf"].
Proof.
  split; [reflexivity|].
  apply (@process_click_same_name ascii_db demo_world_files
           initial_shell demo_form_same_name
           [{| f_name := lit "r.pdf"; f_path := lit "/a/r.pdf" |}] []
           {| f_name := lit "r.pdf"; f_path := lit "/b/r.pdf" |}
           [lit "/b/r.pdf"]).
  - vm_compute. discriminate.
  - left. reflexivity.
  - repeat constructor; eexists; vm_compute; reflexivity.
  - reflexivity.
  - constructor.
  - vm_compute. reflexivity.
Defined.
